(** * zensocial: the debounced cross-posting relay of [src/app.py]

    A shallow embedding of the publish pipeline of [app.py] and the
    properties of its specification:

    - the text/URL normaliser [extract_and_clean_text],
    - the Bluesky link-facet computation [BlueskyClient.parse_links],
    - the retry executor [post_with_retry] and [exponential_backoff],
    - the fan-out coordinator [post_to_social],
    - the pending-post manager [handle_message], [handle_photo] and
      [wait_and_post], run by a model of the asyncio event loop.

    Python values are modelled as follows.  A [str] is the list of its code
    points, a [bytes] object the list of its byte values (both as [N]);
    [str.encode('UTF-8')] is partial, as in Python, where a lone surrogate
    raises [UnicodeEncodeError].  A raised exception is an error result. *)

From Stdlib Require Import ZArith NArith QArith Lia Lqa List String Ascii.
From stdpp Require Import gmap strings list fin_maps sorting.

Local Open Scope N_scope.

(** ** Python strings and bytes *)

(** A string literal of the source, as the list of its code points. *)
Definition str (s : string) : list N :=
  List.map N_of_ascii (list_ascii_of_string s).

(** Every code point of a Python [str] is below [0x110000]. *)
Definition is_codepoint (c : N) : Prop := c < 1114112.

(** The surrogate range [U+D800..U+DFFF]. *)
Definition is_surrogate (c : N) : bool := (55296 <=? c) && (c <=? 57343).

(** [str.isspace] on one code point, which is also [\s] of a [str] pattern
    and the set that [str.strip] removes (CPython's [Py_UNICODE_ISSPACE]). *)
Definition isspace (c : N) : bool :=
  ((9 <=? c) && (c <=? 13)) || ((28 <=? c) && (c <=? 32))
  || (c =? 133) || (c =? 160) || (c =? 5760)
  || ((8192 <=? c) && (c <=? 8202))
  || (c =? 8232) || (c =? 8233) || (c =? 8239) || (c =? 8287) || (c =? 12288).

(** [\s] of a [bytes] pattern: the ASCII whitespace [ \t\n\r\f\v]. *)
Definition isspace_ascii (b : N) : bool :=
  ((9 <=? b) && (b <=? 13)) || (b =? 32).

(** The line boundaries of [str.splitlines] (CPython's
    [Py_UNICODE_ISLINEBREAK]). *)
Definition islinebreak (c : N) : bool :=
  ((10 <=? c) && (c <=? 13)) || ((28 <=? c) && (c <=? 30))
  || (c =? 133) || (c =? 8232) || (c =? 8233).

(** *** UTF-8 *)

(** The UTF-8 encoding of one code point; [None] where the strict encoder
    raises (a surrogate) or the value is no code point. *)
Definition utf8_encode_cp (c : N) : option (list N) :=
  if c <? 128 then Some [c]
  else if c <? 2048 then Some [192 + c / 64; 128 + c mod 64]
  else if c <? 65536 then
    if is_surrogate c then None
    else Some [224 + c / 4096; 128 + (c / 64) mod 64; 128 + c mod 64]
  else if c <? 1114112 then
    Some [240 + c / 262144; 128 + (c / 4096) mod 64;
          128 + (c / 64) mod 64; 128 + c mod 64]
  else None.

(** [s.encode('UTF-8')]. *)
Fixpoint encode (s : list N) : option (list N) :=
  match s with
  | [] => Some []
  | c :: r =>
      match utf8_encode_cp c, encode r with
      | Some b, Some bs => Some (b ++ bs)
      | _, _ => None
      end
  end.

Definition is_cont (b : N) : bool := (128 <=? b) && (b <? 192).

(** [b.decode('UTF-8')], strict: [None] where Python raises
    [UnicodeDecodeError] (a stray or missing continuation byte, an overlong
    form, a surrogate, a value above [U+10FFFF]). *)
Fixpoint decode (bs : list N) : option (list N) :=
  match bs with
  | [] => Some []
  | b0 :: r0 =>
      if b0 <? 128 then cons b0 <$> decode r0
      else if b0 <? 194 then None
      else if b0 <? 224 then
        match r0 with
        | b1 :: r1 =>
            if is_cont b1
            then cons ((b0 - 192) * 64 + (b1 - 128)) <$> decode r1
            else None
        | _ => None
        end
      else if b0 <? 240 then
        match r0 with
        | b1 :: b2 :: r2 =>
            let c := (b0 - 224) * 4096 + (b1 - 128) * 64 + (b2 - 128) in
            if is_cont b1 && is_cont b2 && (2048 <=? c) && negb (is_surrogate c)
            then cons c <$> decode r2
            else None
        | _ => None
        end
      else if b0 <? 245 then
        match r0 with
        | b1 :: b2 :: b3 :: r3 =>
            let c := (b0 - 240) * 262144 + (b1 - 128) * 4096
                     + (b2 - 128) * 64 + (b3 - 128) in
            if is_cont b1 && is_cont b2 && is_cont b3
               && (65536 <=? c) && (c <? 1114112)
            then cons c <$> decode r3
            else None
        | _ => None
        end
      else None
  end.

(** A string that [encode] accepts: code points, none of them a surrogate. *)
Definition encodable (s : list N) : Prop :=
  Forall (fun c => is_codepoint c /\ is_surrogate c = false) s.

(** ** Strings: strip, replace, split, join *)

(** What is left of [s] after its longest prefix of members satisfying [p]. *)
Fixpoint drop_while (p : N -> bool) (s : list N) : list N :=
  match s with
  | c :: r => if p c then drop_while p r else s
  | [] => []
  end.

(** [s.lstrip()], [s.rstrip()] and [s.strip()]. *)
Definition lstrip (s : list N) : list N := drop_while isspace s.
Definition rstrip (s : list N) : list N := rev (drop_while isspace (rev s)).
Definition strip (s : list N) : list N := rstrip (lstrip s).

(** [Some r] when [s = p ++ r]. *)
Fixpoint strip_prefix (p s : list N) : option (list N) :=
  match p, s with
  | [], _ => Some s
  | a :: p', b :: s' => if a =? b then strip_prefix p' s' else None
  | _ :: _, [] => None
  end.

(** ** Regular expressions

    [re] scans left to right and reports leftmost, non-overlapping matches.
    A pattern is given by its matcher [m]: [m s] is the length of the match
    that starts at the head of [s], if there is one.  None of the patterns
    of [app.py] matches the empty string.  [skip] counts the characters of
    the current match that are still to be passed over. *)

(** [re.finditer]: the spans [(start, end)] of the matches. *)
Fixpoint finditer_from (m : list N -> option nat) (pos skip : nat)
    (s : list N) : list (nat * nat) :=
  match s with
  | [] => []
  | _ :: r =>
      match skip with
      | S k => finditer_from m (S pos) k r
      | O =>
          match m s with
          | Some (S n) => (pos, pos + S n)%nat :: finditer_from m (S pos) n r
          | _ => finditer_from m (S pos) 0 r
          end
      end
  end.

Definition finditer (m : list N -> option nat) (s : list N)
  : list (nat * nat) := finditer_from m 0 0 s.

(** [s[i:j]]. *)
Definition slice (i j : nat) (s : list N) : list N := take (j - i) (drop i s).

(** [re.findall] of a pattern without groups: the matched strings. *)
Definition findall (m : list N -> option nat) (s : list N) : list (list N) :=
  List.map (fun sp => slice (fst sp) (snd sp) s) (finditer m s).

(** [re.sub(pattern, repl, s)] for a constant replacement. *)
Fixpoint re_sub_from (m : list N -> option nat) (repl : list N) (skip : nat)
    (s : list N) : list N :=
  match s with
  | [] => []
  | c :: r =>
      match skip with
      | S k => re_sub_from m repl k r
      | O =>
          match m s with
          | Some (S n) => repl ++ re_sub_from m repl n r
          | _ => c :: re_sub_from m repl 0 r
          end
      end
  end.

Definition re_sub (m : list N -> option nat) (repl s : list N) : list N :=
  re_sub_from m repl 0 s.

(** The matcher of a literal, and [s.replace(old, new)]: every
    non-overlapping occurrence, from the left.  ([old] is never empty where
    [app.py] calls it with a variable; an empty [old] matches nowhere here.) *)
Definition match_literal (old : list N) (s : list N) : option nat :=
  match strip_prefix old s with
  | Some _ => Some (length old)
  | None => None
  end.

Definition replace (old new s : list N) : list N :=
  re_sub (match_literal old) new s.

(** The length of the longest prefix of [s] whose members satisfy [p]. *)
Fixpoint run_length (p : N -> bool) (s : list N) : nat :=
  match s with
  | c :: r => if p c then S (run_length p r) else O
  | [] => O
  end.

(** [lit\S+]: the literal, then a longest run of at least one character
    outside [sp]. *)
Definition match_lit_nonspace (sp : N -> bool) (lit : list N) (s : list N)
  : option nat :=
  match strip_prefix lit s with
  | Some r =>
      match run_length (fun c => negb (sp c)) r with
      | O => None
      | S k => Some (length lit + S k)%nat
      end
  | None => None
  end.

(** [https?://\S+]. *)
Definition match_http (sp : N -> bool) (s : list N) : option nat :=
  match match_lit_nonspace sp (str "https://") s with
  | Some n => Some n
  | None => match_lit_nonspace sp (str "http://") s
  end.

(** [url_pattern = r'https?://\S+|www\.\S+'] of [extract_and_clean_text]. *)
Definition url_pattern (s : list N) : option nat :=
  match match_http isspace s with
  | Some n => Some n
  | None => match_lit_nonspace isspace (str "www.") s
  end.

(** [pattern = rb'https?://\S+'] of [parse_links], over bytes. *)
Definition link_pattern (s : list N) : option nat := match_http isspace_ascii s.

(** [\s+]. *)
Definition ws_plus (s : list N) : option nat :=
  match run_length isspace s with
  | O => None
  | S k => Some (S k)
  end.

(** The index after the last newline of [s] within its first [n]
    characters, if there is one. *)
Fixpoint last_newline (n : nat) (s : list N) : option nat :=
  match n, s with
  | S n', c :: r =>
      match last_newline n' r with
      | Some k => Some (S k)
      | None => if c =? 10 then Some 1%nat else None
      end
  | _, _ => None
  end.

(** [\n\s*\n]: a newline, a greedy whitespace run, backed off to its last
    newline. *)
Definition blank_lines (s : list N) : option nat :=
  match s with
  | c :: r =>
      if c =? 10 then
        match last_newline (run_length isspace r) r with
        | Some k => Some (S k)
        | None => None
        end
      else None
  | [] => None
  end.

(** [s.splitlines()]: [cur] is the line being read.  A line boundary closes
    the line ([\r\n] counts as one boundary); what follows the last boundary
    is a line only when it is not empty. *)
Fixpoint splitlines_from (cur : list N) (s : list N) : list (list N) :=
  match s with
  | [] => match cur with [] => [] | _ => [cur] end
  | c :: r =>
      if islinebreak c then
        match r with
        | d :: r' =>
            if (c =? 13) && (d =? 10) then cur :: splitlines_from [] r'
            else cur :: splitlines_from [] r
        | [] => cur :: splitlines_from [] r
        end
      else splitlines_from (cur ++ [c]) r
  end.

Definition splitlines (s : list N) : list (list N) := splitlines_from [] s.

(** [sep.join(parts)]. *)
Fixpoint join (sep : list N) (parts : list (list N)) : list N :=
  match parts with
  | [] => []
  | [p] => p
  | p :: ps => p ++ sep ++ join sep ps
  end.

(** ** The text/URL normaliser *)

Definition CR : N := 13.
Definition LF : N := 10.
Definition SP : N := 32.

(** [[url for url in urls if len(url.encode('utf-8')) <= 256]]; an [encode]
    that raises ends the comprehension. *)
Fixpoint short_urls (urls : list (list N)) : option (list (list N)) :=
  match urls with
  | [] => Some []
  | u :: r =>
      match encode u with
      | None => None
      | Some b =>
          match short_urls r with
          | None => None
          | Some v => Some (if (length b <=? 256)%nat then u :: v else v)
          end
      end
  end.

(** [for url in urls: cleaned_text = cleaned_text.replace(url, '').strip()] *)
Definition clean_urls (urls : list (list N)) (s : list N) : list N :=
  fold_left (fun cleaned url => strip (replace url [] cleaned)) urls s.

(** The line-break preserving branch of [extract_and_clean_text]. *)
Definition farcaster_lines (cleaned : list N) : list N :=
  let cleaned := replace [CR] [LF] (replace [CR; LF] [LF] cleaned) in
  let cleaned := re_sub blank_lines [LF; LF] cleaned in
  join [LF] (List.map rstrip (splitlines cleaned)).

(** [extract_and_clean_text(text, for_farcaster)]: the cleaned text and the
    retained URLs; [None] when [encode] raises. *)
Definition extract_and_clean_text (t : list N) (for_farcaster : bool)
  : option (list N * list (list N)) :=
  let urls := findall url_pattern t in
  match short_urls urls with
  | None => None
  | Some short =>
      let valid_urls := take 2 short in
      let cleaned_text := clean_urls urls t in
      let cleaned_text :=
        if for_farcaster then farcaster_lines cleaned_text
        else re_sub ws_plus [SP] cleaned_text in
      Some (strip cleaned_text, valid_urls)
  end.

(** ** Bluesky link facets *)

(** A facet: the byte span of a link and its URI. *)
Record facet := Facet { byteStart : nat; byteEnd : nat; uri : list N }.

(** [BlueskyClient.parse_links(text)]; [None] when [encode] or [decode]
    raises. *)
Definition parse_links (t : list N) : option (list facet) :=
  match encode t with
  | None => None
  | Some text_bytes =>
      mapM (fun sp => Facet (fst sp) (snd sp) <$> decode (slice (fst sp) (snd sp) text_bytes))
           (finditer link_pattern text_bytes)
  end.

(** ** Exceptions and results *)

(** A raised [Exception], as far as [app.py] inspects one: its class, and
    its [response] attribute.  [exn_response] is [None] when the exception
    has no such attribute ([hasattr] is false), [Some None] when the
    attribute is there without a [status_code] (the [response = None] of a
    [requests] connection error), and [Some (Some c)] for an HTTP response
    of status [c]. *)
Record exn := Exn { exn_class : string; exn_response : option (option Z) }.

Definition AttributeError : exn := Exn "AttributeError" None.
Definition TypeError : exn := Exn "TypeError" None.
Definition UnicodeEncodeError : exn := Exn "UnicodeEncodeError" None.

(** The outcome of a call: a value, or a raised exception. *)
Inductive result (A : Type) : Type :=
| Returned (a : A)
| Raised (e : exn).
Arguments Returned {A} a.
Arguments Raised {A} e.

(** ** The retry executor *)

(** [random.uniform(a, b)] is [a + (b - a) * random()]; [r] is the value
    that [random()] draws, in [[0, 1)]. *)
Definition uniform (a b r : Q) : Q := (a + (b - a) * r)%Q.

(** [exponential_backoff(attempt, max_delay)], on the draw [r]. *)
Definition exponential_backoff (attempt : Z) (max_delay : Z) (r : Q) : Q :=
  let delay := Z.min max_delay (2 ^ attempt) in
  let jitter := uniform 0 ((1 # 10) * inject_Z delay) r in
  (inject_Z delay + jitter)%Q.

(** What a run of [post_with_retry] did: how often it invoked the
    operation, and the delays it slept, in order. *)
Record retry_trace := RetryTrace { invocations : nat; sleeps : list Q }.

(** The [for attempt in range(max_retries)] loop of [post_with_retry].
    [func k] is the outcome of invocation [k] of the operation and [rnd k]
    the draw of the backoff after it; [budget] counts the iterations left. *)
Fixpoint retry_loop {A} (func : nat -> result A) (rnd : nat -> Q)
    (attempt budget : nat) (last_exception : option exn) (slept : list Q)
  : result A * retry_trace :=
  match budget with
  | O =>
      (* [raise last_exception]; raising [None] is a [TypeError] *)
      (Raised (default TypeError last_exception), RetryTrace attempt slept)
  | S budget' =>
      match func attempt with
      | Returned v => (Returned v, RetryTrace (S attempt) slept)
      | Raised e =>
          match exn_response e with
          | None => (Raised e, RetryTrace (S attempt) slept)
          | Some None =>
              (* [e.response.status_code] raises inside the handler *)
              (Raised AttributeError, RetryTrace (S attempt) slept)
          | Some (Some status_code) =>
              if (status_code =? 429)%Z then
                let delay := exponential_backoff (Z.of_nat attempt) 32 (rnd attempt) in
                retry_loop func rnd (S attempt) budget' (Some e) (slept ++ [delay])
              else (Raised e, RetryTrace (S attempt) slept)
          end
      end
  end.

(** [post_with_retry(func, max_retries=3)]. *)
Definition post_with_retry {A} (func : nat -> result A) (rnd : nat -> Q)
    (max_retries : Z) : result A * retry_trace :=
  retry_loop func rnd 0 (Z.to_nat max_retries) None [].

Definition default_max_retries : Z := 3.

(** ** The fan-out coordinator *)

(** [list.sort()] on strings: insertion into a sorted list, ordered by
    code point. *)
Fixpoint insert_sorted (x : string) (l : list string) : list string :=
  match l with
  | [] => [x]
  | y :: r => if String.leb x y then x :: l else y :: insert_sorted x r
  end.

Definition sort (l : list string) : list string :=
  fold_right insert_sorted [] l.

(** [sep.join(parts)] on status strings. *)
Fixpoint join_strings (sep : string) (parts : list string) : string :=
  match parts with
  | [] => ""
  | [p] => p
  | p :: ps => p +:+ sep +:+ join_strings sep ps
  end.

(** The successes and failures of [post_to_social], as appended. *)
Definition partition_platforms (twitter_success farcaster_success
    bluesky_success : bool) : list string * list string :=
  let successes := [] in
  let failures := [] in
  let '(successes, failures) :=
    if bluesky_success then (successes ++ ["Bluesky"], failures)
    else (successes, failures ++ ["Bluesky"]) in
  let '(successes, failures) :=
    if farcaster_success then (successes ++ ["Farcaster"], failures)
    else (successes, failures ++ ["Farcaster"]) in
  if twitter_success then (successes ++ ["X"], failures)
  else (successes, failures ++ ["X"]).

(** The status message of [post_to_social] ("Determine status message"). *)
Definition status_message (twitter_success farcaster_success
    bluesky_success : bool) : string :=
  let '(successes, failures) :=
    partition_platforms twitter_success farcaster_success bluesky_success in
  let successes := sort successes in
  let failures := sort failures in
  let status_parts := [] in
  let status_parts :=
    match successes with
    | [] => status_parts
    | _ => status_parts ++ ["Posted: " +:+ join_strings ", " successes]
    end in
  let status_parts :=
    match failures with
    | [] => status_parts
    | _ => status_parts ++ ["Failed: " +:+ join_strings ", " failures]
    end in
  let status_msg := match failures with [] => "" | _ => " / " end in
  join_strings status_msg status_parts.

(** The collaborators of one call of [post_to_social].  Each is an oracle:
    its last argument [k] numbers the invocations that the retry executor
    makes, so that the same call may fail first and succeed later.
    [create_tweet] stands for the closure [post_to_twitter] (temporary file,
    media upload, [create_tweet]) and gives [tweet.data['id']] when the
    response has one; [bluesky_create_post] stands for
    [bluesky_client.create_post]; [random_draw p] is the stream of
    [random()] values used by the backoff of platform [p]. *)
Record world := World {
  create_tweet : list N -> option (list N) -> nat -> result (option string);
  upload_to_imgur : list N -> nat -> result (list N);
  warpcast_cast : list N -> list (list N) -> nat -> result Z;
  bluesky_create_post : list N -> option (list N) -> nat -> result (list N);
  random_draw : nat -> nat -> Q
}.

(** The closure [post_to_farcaster]: the payload (text, embeds), then the
    cast.  The image, when there is one, is hosted first and takes the first
    embed slot; the other slots, two in all, go to the retained URLs. *)
Definition post_to_farcaster (w : world) (farcaster_text : list N)
    (urls : list (list N)) (image_data : option (list N)) (k : nat)
  : result Z :=
  let hosted :=
    match image_data with
    | Some img =>
        match upload_to_imgur w img k with
        | Returned imgur_url => Returned ([imgur_url], farcaster_text ++ [LF])
        | Raised e => Raised e
        end
    | None => Returned ([], farcaster_text)
    end in
  match hosted with
  | Raised e => Raised e
  | Returned (embeds, payload_text) =>
      let remaining_slots := (2 - length embeds)%nat in
      let embeds :=
        match remaining_slots, urls with
        | S _, _ :: _ => embeds ++ take remaining_slots urls
        | _, _ => embeds
        end in
      warpcast_cast w payload_text embeds k
  end.

(** What [post_to_social] returns, [(tweet_url, bluesky_uri,
    farcaster_status, status_msg)], and what its three retry executors did. *)
Record fanout := Fanout {
  tweet_url : option string;
  bluesky_uri : option (list N);
  farcaster_status : option Z;
  status_msg : string;
  twitter_trace : retry_trace;
  farcaster_trace : retry_trace;
  bluesky_trace : retry_trace
}.

(** [post_to_social(text, image_data)].  Each platform has its own
    [try]/[except Exception] around its own retry executor; the normaliser
    runs before them, outside of any [except].  (The [finally] that removes
    the temporary file changes nothing of the result.) *)
Definition post_to_social (w : world) (t : list N)
    (image_data : option (list N)) : result fanout :=
  let twitter_text := t in
  match extract_and_clean_text t true with
  | None => Raised UnicodeEncodeError
  | Some (farcaster_text, urls) =>
      let bluesky_text := t in
      (* Twitter *)
      let tw := post_with_retry (create_tweet w twitter_text image_data)
                  (random_draw w 0) default_max_retries in
      let '(tweet_url, twitter_success) :=
        match fst tw with
        | Returned (Some id) =>
            (Some ("https://twitter.com/user/status/" +:+ id), true)
        | Returned None => (None, false)
        | Raised _ => (None, false)
        end in
      (* Farcaster *)
      let fc := post_with_retry (post_to_farcaster w farcaster_text urls image_data)
                  (random_draw w 1) default_max_retries in
      let '(farcaster_status, farcaster_success) :=
        match fst fc with
        | Returned status_code => (Some status_code, true)
        | Raised _ => (None, false)
        end in
      (* Bluesky *)
      let bs := post_with_retry (bluesky_create_post w bluesky_text image_data)
                  (random_draw w 2) default_max_retries in
      let '(bluesky_uri, bluesky_success) :=
        match fst bs with
        | Returned u => (Some u, true)
        | Raised _ => (None, false)
        end in
      Returned
        (Fanout tweet_url bluesky_uri farcaster_status
           (status_message twitter_success farcaster_success bluesky_success)
           (snd tw) (snd fc) (snd bs))
  end.

(** ** The pending-post manager and the event loop *)

(** An entry of [pending_posts].  [handle_message] stores the keys [text],
    [timestamp], [task] and [chat_id]; nothing stores [image_data], which
    [wait_and_post] reads with [.get]. *)
Record pending_post := PendingPost {
  pp_text : list N;
  pp_timestamp : Z;
  pp_task : nat;
  pp_chat_id : Z;
  pp_image_data : option (list N)
}.

(** How a coroutine ended: it returned, an [Exception] escaped it, or it was
    cancelled ([asyncio.CancelledError], which no [except Exception]
    catches). *)
Inductive completion := Completed | Escaped (e : exn) | Cancelled.

(** A task made by [asyncio.create_task(wait_and_post(user_id, context))]:
    not yet run, suspended in [await asyncio.sleep(36)] until [wake], or
    done. *)
Inductive task_state := Created | Sleeping (wake : Z) | Done (c : completion).

Record task := Task {
  t_user : string;
  t_state : task_state;
  t_cancel_requested : bool
}.

(** The process: the global [pending_posts], the tasks of the event loop
    (a task is named by its index), the loop's clock, and what has been
    observed outside: the calls of [post_to_social] and the messages sent. *)
Record state := State {
  pending_posts : gmap string pending_post;
  tasks : list task;
  now : Z;
  published : list (list N * option (list N));
  replies : list (Z * string)
}.

Definition initial : state := State ∅ [] 0 [] [].

Definition set_pending (f : gmap string pending_post -> gmap string pending_post)
    (st : state) : state :=
  State (f (pending_posts st)) (tasks st) (now st) (published st) (replies st).

Definition set_tasks (f : list task -> list task) (st : state) : state :=
  State (pending_posts st) (f (tasks st)) (now st) (published st) (replies st).

(** [task.cancel()]: a request, served when the loop next runs the task; a
    task that is done ignores it. *)
Definition cancel (i : nat) (st : state) : state :=
  set_tasks (fun ts =>
    match ts !! i with
    | Some t =>
        match t_state t with
        | Done _ => ts
        | _ => <[i := Task (t_user t) (t_state t) true]> ts
        end
    | None => ts
    end) st.

Definition finish (i : nat) (s : task_state) (st : state) : state :=
  set_tasks (fun ts =>
    match ts !! i with
    | Some t => <[i := Task (t_user t) s (t_cancel_requested t)]> ts
    | None => ts
    end) st.

(** [if user_id in pending_posts: del pending_posts[user_id]] *)
Definition cleanup (user_id : string) (st : state) : state :=
  set_pending (delete user_id) st.

Definition failure_notice : string := "Failed posting to social platforms".

Section Manager.

(** The world that the [n]-th call of [post_to_social] runs in, and the
    transport: [send_raises chat text] is the exception, if any, that
    sending [text] to [chat] raises. *)
Variable w : nat -> world.
Variable send_raises : Z -> string -> option exn.

(** [context.bot.send_message] and [update.message.reply_text]. *)
Definition send_message (chat : Z) (msg : string) (st : state)
  : state * option exn :=
  match send_raises chat msg with
  | Some e => (st, Some e)
  | None =>
      (State (pending_posts st) (tasks st) (now st) (published st)
             (replies st ++ [(chat, msg)]), None)
  end.

(** A call of [post_to_social], logged. *)
Definition call_post_to_social (t : list N) (image : option (list N))
    (st : state) : state * result fanout :=
  (State (pending_posts st) (tasks st) (now st)
         (published st ++ [(t, image)]) (replies st),
   post_to_social (w (length (published st))) t image).

(** [wait_and_post] from the point where its sleep has elapsed: the [try]
    body, the [except Exception] handler, the [finally]. *)
Definition wait_and_post_elapsed (user_id : string) (st : state)
  : state * completion :=
  (* try *)
  let '(st, raised) :=
    match pending_posts st !! user_id with
    | Some post_data =>
        match pp_image_data post_data with
        | None =>
            let '(st, r) := call_post_to_social (pp_text post_data) None st in
            match r with
            | Returned f =>
                if (pp_chat_id post_data =? 0)%Z then (st, None)
                else send_message (pp_chat_id post_data) (status_msg f) st
            | Raised e => (st, Some e)
            end
        | Some _ => (st, None)
        end
    | None => (st, None)
    end in
  (* except Exception *)
  let '(st, escaped) :=
    match raised with
    | None => (st, None)
    | Some _ =>
        match pending_posts st !! user_id with
        | Some post_data =>
            if (pp_chat_id post_data =? 0)%Z then (st, None)
            else send_message (pp_chat_id post_data) failure_notice st
        | None => (st, None)
        end
    end in
  (* finally *)
  (cleanup user_id st,
   match escaped with Some e => Escaped e | None => Completed end).

(** [wait_and_post] cancelled in its sleep: [CancelledError] is raised at
    the [await], passes the [except Exception], and the [finally] runs. *)
Definition wait_and_post_cancelled (user_id : string) (st : state)
  : state * completion :=
  (cleanup user_id st, Cancelled).

(** The loop runs task [i] if it is ready.  A task cancelled before its
    first step never enters its body. *)
Definition run_task (i : nat) (st : state) : state :=
  match tasks st !! i with
  | None => st
  | Some t =>
      match t_state t with
      | Done _ => st
      | Created =>
          if t_cancel_requested t then finish i (Done Cancelled) st
          else finish i (Sleeping (now st + 36)) st
      | Sleeping wake =>
          if t_cancel_requested t then
            let '(st, c) := wait_and_post_cancelled (t_user t) st in
            finish i (Done c) st
          else if (wake <=? now st)%Z then
            let '(st, c) := wait_and_post_elapsed (t_user t) st in
            finish i (Done c) st
          else st
      end
  end.

(** One turn of the event loop: every task, in order of creation. *)
Definition loop_turn (st : state) : state :=
  foldl (fun st i => run_task i st) st (seq 0 (length (tasks st))).

(** [handle_message]: it has no [await], so it runs in one piece. *)
Definition handle_message (user_id : string) (chat : Z) (t : list N)
    (st : state) : state * completion :=
  match extract_and_clean_text t false with
  | None => (st, Escaped UnicodeEncodeError)
  | Some _ =>
      let st :=
        match pending_posts st !! user_id with
        | Some post_data => cancel (pp_task post_data) st
        | None => st
        end in
      let new_task := length (tasks st) in
      let st := set_tasks (fun ts => ts ++ [Task user_id Created false]) st in
      let st :=
        set_pending
          (<[user_id := PendingPost t (now st) new_task chat None]>) st in
      (st, Completed)
  end.

(** [handle_photo]; [download] is the outcome of fetching the photo.  The
    loop takes a turn while the handler awaits the download. *)
Definition handle_photo (user_id : string) (chat : Z)
    (download : result (list N)) (st : state) : state * completion :=
  match pending_posts st !! user_id with
  | None =>
      let '(st, raised) := send_message chat "Please send text first." st in
      (st, match raised with Some e => Escaped e | None => Completed end)
  | Some post_data =>
      let t := pp_text post_data in
      let st := cancel (pp_task post_data) st in
      (* try *)
      let st := loop_turn st in
      let '(st, raised) :=
        match download with
        | Raised e => (st, Some e)
        | Returned image_data =>
            let '(st, r) := call_post_to_social t (Some image_data) st in
            match r with
            | Returned f => send_message chat (status_msg f) st
            | Raised e => (st, Some e)
            end
        end in
      (* except Exception *)
      let '(st, escaped) :=
        match raised with
        | None => (st, None)
        | Some _ => send_message chat failure_notice st
        end in
      (* finally *)
      (cleanup user_id st,
       match escaped with Some e => Escaped e | None => Completed end)
  end.

(** What happens to the process: a text or a photo update arrives, or
    time passes.  Updates are handled one after the other; the loop takes
    a turn before and after the clock moves. *)
Inductive event :=
| Text (user_id : string) (chat : Z) (t : list N)
| Photo (user_id : string) (chat : Z) (download : result (list N))
| Tick (dt : Z).

Definition step (st : state) (ev : event) : state :=
  match ev with
  | Text u c t => fst (handle_message u c t st)
  | Photo u c d => fst (handle_photo u c d st)
  | Tick dt =>
      let st := loop_turn st in
      loop_turn (State (pending_posts st) (tasks st) (now st + dt)
                       (published st) (replies st))
  end.

Definition run (evs : list event) (st : state) : state := foldl step st evs.

End Manager.

(** ** The status string, as the specification words it *)

(** The platform display names in alphabetical order, with their flags. *)
Definition succeeded (twitter_success farcaster_success bluesky_success : bool)
  : list string :=
  (if bluesky_success then ["Bluesky"] else [])
  ++ (if farcaster_success then ["Farcaster"] else [])
  ++ (if twitter_success then ["X"] else []).

Definition failed (twitter_success farcaster_success bluesky_success : bool)
  : list string :=
  succeeded (negb twitter_success) (negb farcaster_success)
            (negb bluesky_success).

(** "Posted: <successes>" followed by " / Failed: <failures>", a clause
    being left out when its list is empty. *)
Definition status_as_worded (successes failures : list string) : string :=
  match successes with
  | [] => ""
  | _ => "Posted: " +:+ join_strings ", " successes
  end +:+
  match failures with
  | [] => ""
  | _ => " / Failed: " +:+ join_strings ", " failures
  end.

(** The same with the separator only between two clauses. *)
Definition status_clauses (successes failures : list string) : string :=
  match successes, failures with
  | [], [] => ""
  | [], _ => "Failed: " +:+ join_strings ", " failures
  | _, [] => "Posted: " +:+ join_strings ", " successes
  | _, _ => "Posted: " +:+ join_strings ", " successes
            +:+ " / Failed: " +:+ join_strings ", " failures
  end.

(** [sub] occurs in [s]. *)
Fixpoint occurs (sub s : string) : bool :=
  String.prefix sub s ||
  match s with
  | String _ r => occurs sub r
  | EmptyString => false
  end.

(** ** Scenarios *)

(** A [requests] connection error: it has a [response] attribute, which is
    [None]. *)
Definition ConnectionError : exn := Exn "ConnectionError" (Some None).

(** An HTTP 429 from a platform. *)
Definition TooManyRequests : exn := Exn "TooManyRequests" (Some (Some 429%Z)).

(** A world in which every platform accepts every post. *)
Definition happy_world : world :=
  World (fun _ _ _ => Returned (Some "1"%string))
        (fun _ _ => Returned (str "https://i.imgur.com/x.jpg"))
        (fun _ _ _ => Returned 200%Z)
        (fun _ _ _ => Returned (str "at://did/app.bsky.feed.post/1"))
        (fun _ _ => 0%Q).

Definition alice : string := "42".

(** Two texts of one user, ten seconds apart, and then a long wait. *)
Definition two_texts : list event :=
  [Text alice 7 (str "first"); Tick 10; Text alice 7 (str "second");
   Tick 36; Tick 1000].

(** The same two updates handled back to back, before the loop has run the
    first task. *)
Definition two_texts_back_to_back : list event :=
  [Text alice 7 (str "first"); Text alice 7 (str "second");
   Tick 36; Tick 1000].

(** ** Byte offsets of characters *)

(** The UTF-8 byte index of character [i] of [t]: the number of bytes that
    encode the characters before it. *)
Definition byte_index (t : list N) (i : nat) : option nat :=
  length <$> encode (take i t).

(** The facet [f] covers the characters [i] to [j] (exclusive) of [t]: its
    offsets are their byte indices, its URI is [t[i:j]], and character [i]
    is the [h] (code 104) that a link begins with. *)
Definition facet_covers (t : list N) (f : facet) (i j : nat) : Prop :=
  (i < j <= length t)%nat
  /\ byte_index t i = Some (byteStart f)
  /\ byte_index t j = Some (byteEnd f)
  /\ uri f = slice i j t
  /\ t !! i = Some 104.

(** The span of a facet. *)
Definition facet_span (f : facet) : nat * nat := (byteStart f, byteEnd f).

(** ** Normal forms of the cleaned text *)

(** Whitespace is single spaces between words; [b] tells that the
    character before was a whitespace. *)
Fixpoint single_spaced (b : bool) (s : list N) : Prop :=
  match s with
  | [] => True
  | c :: r =>
      if isspace c then c = SP /\ b = false /\ single_spaced true r
      else single_spaced false r
  end.

(** The line boundaries of [s] are [\n] and [\r] only. *)
Definition plain_lines (s : list N) : Prop :=
  Forall (fun c => islinebreak c = true -> c = LF \/ c = CR) s.

(** The only line boundary of [s] is [\n]. *)
Definition lf_lines (s : list N) : Prop :=
  Forall (fun c => islinebreak c = true -> c = LF) s.

(** No whitespace run of [s] holds more than two newlines; [k] counts the
    newlines of the run that is being read. *)
Fixpoint two_newlines (k : nat) (s : list N) : Prop :=
  match s with
  | [] => True
  | c :: r =>
      if c =? LF then (k < 2)%nat /\ two_newlines (S k) r
      else if isspace c then two_newlines k r
      else two_newlines 0 r
  end.

(** No line of [s] ends with a whitespace: what stands before a newline is
    a newline or no whitespace. *)
Fixpoint tidy_lines (s : list N) : Prop :=
  match s with
  | a :: r =>
      match r with
      | b :: _ => (b = LF -> isspace a = true -> a = LF) /\ tidy_lines r
      | [] => True
      end
  | [] => True
  end.

(** [s'] is [s] less some of its whitespace. *)
Inductive ws_removed : list N -> list N -> Prop :=
| ws_removed_nil : ws_removed [] []
| ws_removed_keep c s' s : ws_removed s' s -> ws_removed (c :: s') (c :: s)
| ws_removed_drop c s' s :
    isspace c = true -> ws_removed s' s -> ws_removed s' (c :: s).

(** The whitespace run that [s] begins with holds no newline. *)
Definition newline_free_run (s : list N) : Prop :=
  last_newline (run_length isspace s) s = None.

(** ['\n'.join(line.rstrip() for line in ...)] over the lines still to be
    split, [cur] being the line that is read. *)
Definition lines_from (cur s : list N) : list N :=
  join [LF] (List.map rstrip (splitlines_from cur s)).

(** ** Invariants of the pending-post table *)

(** A task that can still publish: not done, and not asked to cancel. *)
Definition live (t : task) : Prop :=
  t_cancel_requested t = false /\ forall c, t_state t <> Done c.

(** The entry of [user_id], if there is one, names a live task of that
    user. *)
Definition entry_has_task (user_id : string) (st : state) : Prop :=
  forall p, pending_posts st !! user_id = Some p ->
    exists t, tasks st !! pp_task p = Some t /\ t_user t = user_id /\ live t.

(** No entry is orphaned. *)
Definition no_orphan (st : state) : Prop :=
  forall user_id, entry_has_task user_id st.

(** Task [i] is done. *)
Definition task_done (i : nat) (st : state) : Prop :=
  exists t c, tasks st !! i = Some t /\ t_state t = Done c.

(** Nothing is pending and nothing has been published. *)
Definition quiet (st : state) : Prop :=
  pending_posts st = ∅ /\ published st = [].

(** ** The retry executor, over an operation with state *)

(** The outcome of an invocation is a rate limit: an exception whose
    response has status 429. *)
Definition rate_limited {A} (r : result A) : Prop :=
  exists e, r = Raised e /\ exn_response e = Some (Some 429%Z).

(** The loop of [post_with_retry] around an operation that changes a state
    (the files it writes, the session it keeps): [func k s] is the outcome
    of invocation [k] in state [s], and the state it leaves. *)
Fixpoint retry_loop_st {St A} (func : nat -> St -> result A * St)
    (rnd : nat -> Q) (attempt budget : nat) (last_exception : option exn)
    (slept : list Q) (s : St) : result A * retry_trace * St :=
  match budget with
  | O => (Raised (default TypeError last_exception), RetryTrace attempt slept, s)
  | S budget' =>
      let '(r, s) := func attempt s in
      match r with
      | Returned v => (Returned v, RetryTrace (S attempt) slept, s)
      | Raised e =>
          match exn_response e with
          | None => (Raised e, RetryTrace (S attempt) slept, s)
          | Some None => (Raised AttributeError, RetryTrace (S attempt) slept, s)
          | Some (Some status_code) =>
              if (status_code =? 429)%Z then
                let delay := exponential_backoff (Z.of_nat attempt) 32 (rnd attempt) in
                retry_loop_st func rnd (S attempt) budget' (Some e)
                              (slept ++ [delay]) s
              else (Raised e, RetryTrace (S attempt) slept, s)
          end
      end
  end.

Definition post_with_retry_st {St A} (func : nat -> St -> result A * St)
    (rnd : nat -> Q) (max_retries : Z) (s : St) : result A * retry_trace * St :=
  retry_loop_st func rnd 0 (Z.to_nat max_retries) None [] s.


(** ** Visible characters, and the Bluesky text format *)

(** The characters of [s] that show: those that are no whitespace. *)
Definition visible (s : list N) : list N :=
  List.filter (fun c => negb (isspace c)) s.

(** A matcher that matches nothing but whitespace. *)
Definition matches_whitespace (m : list N -> option nat) : Prop :=
  forall s n, m s = Some n -> (n <= run_length isspace s)%nat.

(** [\n{3,}]: a longest run of at least three newlines. *)
Definition newlines3 (s : list N) : option nat :=
  match run_length (fun c => c =? LF) s with
  | S (S (S k)) => Some (S (S (S k)))
  | _ => None
  end.

(** [BlueskyClient.format_text(text)]. *)
Definition format_text (t : list N) : list N :=
  let formatted_text := replace [CR] [LF] (replace [CR; LF] [LF] t) in
  let formatted_text := re_sub newlines3 [LF; LF] formatted_text in
  let formatted_text :=
    join [LF] (List.map rstrip (splitlines formatted_text)) in
  strip formatted_text.

(** ** Operations that change a state and may raise *)

(** An operation over a state [St]: its outcome and the state it leaves.
    An exception leaves the state as it was when it was raised. *)
Definition stateful (St A : Type) : Type := St -> result A * St.

Definition ret {St A} (a : A) : stateful St A := fun s => (Returned a, s).

Definition raise {St A} (e : exn) : stateful St A := fun s => (Raised e, s).

Definition lift {St A} (r : result A) : stateful St A := fun s => (r, s).

Definition bind {St A B} (m : stateful St A) (k : A -> stateful St B)
  : stateful St B :=
  fun s =>
    match m s with
    | (Returned a, s') => k a s'
    | (Raised e, s') => (Raised e, s')
    end.

Notation "x <- m ;; k" := (bind m (fun x => k))
  (at level 100, m at next level, right associativity).

(** ** The Bluesky client *)

Definition UnicodeDecodeError : exn := Exn "UnicodeDecodeError" None.

Section BlueskyClient.

(** The JSON values that the server replies with, as far as the client
    looks at them: their truth value, and subscription by a key (which
    raises when the value has no such key or is no object). *)
Variable json : Type.
Variable truthy : json -> bool.
Variable getitem : json -> string -> result json.

(** The post record.  [record_facets] and [record_embed] are [None] when the
    record has no such key; [record_embed] holds the blob of the image. *)
Record post_record := PostRecord {
  record_text : list N;
  record_createdAt : Z;
  record_facets : option (list facet);
  record_embed : option json
}.

(** The three requests, with what the client puts into them; [bearer] is
    the value formatted into the [Authorization] header. *)
Inductive request :=
| CreateSession (identifier password : string)
| UploadBlob (bearer : json) (data : list N)
| CreateRecord (bearer repo : json) (record : post_record).

(** A response: its status, and what [resp.json()] gives. *)
Record response := Response {
  status_code : Z;
  response_json : result json
}.

(** [requests.post]: the outcome of a request, given the requests made
    before it. *)
Variable requests_post : list request -> request -> result response.

(** The client object, and the requests made so far (the latest last).
    [session] is [None] for Python's [None]. *)
Record client := Client {
  handle : string;
  password : string;
  session : option json;
  sent : list request
}.

(** [BlueskyClient(handle, password)]. *)
Definition BlueskyClient (handle password : string) : client :=
  Client handle password None [].

Definition post (rq : request) : stateful client response :=
  fun c =>
    (requests_post (sent c) rq,
     Client (handle c) (password c) (session c) (sent c ++ [rq])).

(** [resp.raise_for_status()]. *)
Definition raise_for_status (resp : response) : stateful client unit :=
  if (400 <=? status_code resp)%Z && (status_code resp <? 600)%Z
  then raise (Exn "HTTPError" (Some (Some (status_code resp))))
  else ret tt.

(** [bool(self.session)]. *)
Definition has_session (c : client) : bool :=
  match session c with
  | Some j => truthy j
  | None => false
  end.

(** [self.session[key]]. *)
Definition session_item (key : string) : stateful client json :=
  fun c =>
    match session c with
    | Some j => (getitem j key, c)
    | None => (Raised TypeError, c)
    end.

Definition set_session (j : json) : stateful client unit :=
  fun c => (Returned tt, Client (handle c) (password c) (Some j) (sent c)).

(** [create_session()].  Both [except] clauses log and raise again. *)
Definition create_session : stateful client unit :=
  fun c =>
    (resp <- post (CreateSession (handle c) (password c)) ;;
     if (status_code resp =? 401)%Z then raise (Exn "Exception" None)
     else
       _ <- raise_for_status resp ;;
       j <- lift (response_json resp) ;;
       set_session j) c.

(** [if not self.session: await self.create_session()]. *)
Definition ensure_session : stateful client unit :=
  fun c => if has_session c then ret tt c else create_session c.

(** [upload_image(image_data)]. *)
Definition upload_image (image_data : list N) : stateful client json :=
  _ <- ensure_session ;;
  let img_bytes := image_data in
  if (1000000 <? Z.of_nat (length img_bytes))%Z
  then raise (Exn "Exception" None)
  else
    bearer <- session_item "accessJwt" ;;
    resp <- post (UploadBlob bearer img_bytes) ;;
    _ <- raise_for_status resp ;;
    j <- lift (response_json resp) ;;
    lift (getitem j "blob").

(** [parse_links(formatted_text)], with the exception it raises. *)
Definition link_facets (formatted_text : list N) : result (list facet) :=
  match encode formatted_text with
  | None => Raised UnicodeEncodeError
  | Some _ =>
      match parse_links formatted_text with
      | Some facets => Returned facets
      | None => Raised UnicodeDecodeError
      end
  end.

(** [create_post(text, image_data)]; [now] is the reading of the clock that
    goes into [createdAt]. *)
Definition create_post (text : list N) (image_data : option (list N))
    (now : Z) : stateful client json :=
  _ <- ensure_session ;;
  let formatted_text := format_text text in
  facets <- lift (link_facets formatted_text) ;;
  embed <- match image_data with
           | Some img => blob <- upload_image img ;; ret (Some blob)
           | None => ret None
           end ;;
  bearer <- session_item "accessJwt" ;;
  repo <- session_item "did" ;;
  resp <- post (CreateRecord bearer repo
                  (PostRecord formatted_text now
                     match facets with [] => None | _ => Some facets end
                     embed)) ;;
  _ <- raise_for_status resp ;;
  j <- lift (response_json resp) ;;
  lift (getitem j "uri").

(** The closure [post_to_bluesky] of [post_to_social], as the retry
    executor invokes it: [clock k] is the time at invocation [k]. *)
Definition post_to_bluesky (bluesky_text : list N)
    (image_data : option (list N)) (clock : nat -> Z) (k : nat)
  : stateful client json :=
  create_post bluesky_text image_data (clock k).

Definition is_create_session (rq : request) : bool :=
  match rq with
  | CreateSession _ _ => true
  | _ => false
  end.

End BlueskyClient.

Arguments PostRecord {json}.
Arguments CreateSession {json}.
Arguments UploadBlob {json}.
Arguments CreateRecord {json}.
Arguments Response {json}.
Arguments Client {json}.
Arguments status_code {json}.
Arguments response_json {json}.
Arguments handle {json}.
Arguments password {json}.
Arguments session {json}.
Arguments sent {json}.
Arguments record_text {json}.
Arguments record_createdAt {json}.
Arguments record_facets {json}.
Arguments record_embed {json}.
Arguments BlueskyClient {json}.
Arguments post {json}.
Arguments raise_for_status {json}.
Arguments has_session {json}.
Arguments session_item {json}.
Arguments set_session {json}.
Arguments create_session {json}.
Arguments ensure_session {json}.
Arguments upload_image {json}.
Arguments create_post {json}.
Arguments post_to_bluesky {json}.
Arguments is_create_session {json}.

(** *** Scenarios for the Bluesky client

    JSON values are booleans here, and every subscription gives the value
    itself. *)

Definition same_item (j : bool) (key : string) : result bool := Returned j.

(** A server that answers every request with status 200 and [true]. *)
Definition accepting_server (history : list (request bool))
    (rq : request bool) : result (response bool) :=
  Returned (Response 200 (Returned true)).

(** A server that answers every request with status 401. *)
Definition refusing_server (history : list (request bool))
    (rq : request bool) : result (response bool) :=
  Returned (Response 401 (Returned false)).

(** A client that holds a session. *)
Definition logged_in : client bool :=
  Client "handle" "app-password" (Some true) [].

(** An image of 1,000,001 bytes. *)
Definition big_image : list N := replicate (Z.to_nat 1000001) 0.

(** Every task is done and nothing is pending: the process is at rest. *)
Definition settled (st : state) : Prop :=
  pending_posts st = ∅
  /\ Forall (fun t => exists c, t_state t = Done c) (tasks st).

(** The state in which the text [t] of [user_id] waits: its entry, and its
    timer as the last task, behind the tasks [ts]. *)
Definition waiting (user_id : string) (chat : Z) (t : list N) (since : Z)
    (ts : list task) (timer : task_state) (clock : Z)
    (pub : list (list N * option (list N))) (rep : list (Z * string)) : state :=
  State {[user_id := PendingPost t since (length ts) chat None]}
        (ts ++ [Task user_id timer false]) clock pub rep.

(** The timer has not fired: it is to wake at [wake]. *)
Definition armed (timer : task_state) (clock wake : Z) : Prop :=
  (timer = Created /\ wake = (clock + 36)%Z)
  \/ (timer = Sleeping wake /\ (clock < wake)%Z).

(** ** The temporary file of the Twitter upload *)

(** The files of the working directory, by name, and the variable
    [temp_file] of [post_to_social] ([None] for Python's [None]).  Writing
    and removing a file are taken to succeed. *)
Record disk := Disk {
  files : gmap string (list N);
  temp_file : option string
}.

(** [clean_temp_file(file_path)]: the file is removed if it exists. *)
Definition clean_temp_file (file_path : string) (d : disk) : disk :=
  Disk (delete file_path (files d)) (temp_file d).

Section TwitterFiles.

(** [temp_name k] is the name that invocation [k] of the closure forms from
    the clock, [f'temp_image_{datetime.now().timestamp()}.jpg'];
    [media_upload filename content k] is [twitter_api.media_upload] on the
    file written, giving [media.media_id]; [tweet t media_id k] is
    [twitter_client.create_tweet]. *)
Variable temp_name : nat -> string.
Variable media_upload : string -> list N -> nat -> result Z.
Variable tweet : list N -> option Z -> nat -> result (option string).

(** The closure [post_to_twitter] of [post_to_social], at invocation [k]. *)
Definition post_to_twitter (twitter_text : list N)
    (image_data : option (list N)) (k : nat)
  : stateful disk (option string) :=
  fun d =>
    match image_data with
    | Some img =>
        let name := temp_name k in
        let d := Disk (<[name := img]> (files d)) (Some name) in
        match media_upload name img k with
        | Returned media_id => (tweet twitter_text (Some media_id) k, d)
        | Raised e => (Raised e, d)
        end
    | None => (tweet twitter_text None k, d)
    end.

(** The Twitter leg of [post_to_social(text, image_data)], as far as the
    files go: the retry executor around the closure. *)
Definition twitter_leg (t : list N) (image_data : option (list N))
    (rnd : nat -> Q) (d : disk) : result (option string) * retry_trace * disk :=
  post_with_retry_st (post_to_twitter t image_data) rnd default_max_retries d.

(** The files that [post_to_social(text, image_data)] leaves: those of the
    Twitter leg (no other leg writes a file), after the [finally] that
    removes [temp_file].  When the normaliser raises, nothing has been
    written and [temp_file] is [None]. *)
Definition files_after_post (t : list N) (image_data : option (list N))
    (rnd : nat -> Q) (before : gmap string (list N)) : gmap string (list N) :=
  match extract_and_clean_text t true with
  | None => before
  | Some _ =>
      let d := snd (twitter_leg t image_data rnd (Disk before None)) in
      match temp_file d with
      | Some name => files (clean_temp_file name d)
      | None => files d
      end
  end.

End TwitterFiles.

(** *** A scenario: Twitter limits the rate of the first attempt *)

Definition two_names (k : nat) : string :=
  match k with
  | O => "temp_image_1.jpg"
  | _ => "temp_image_2.jpg"
  end.

Definition limited_once (t : list N) (media_id : option Z) (k : nat)
  : result (option string) :=
  match k with
  | O => Raised TooManyRequests
  | _ => Returned (Some "1"%string)
  end.

(** ** Configuration *)

(** The message of the [ValueError] of [get_env_var]. *)
Definition missing (var_name : string) : string :=
  "Missing required environment variable: " +:+ var_name.

(** [get_env_var(var_name)] over the environment [env] (as it is after
    [load_dotenv()]): the value, or the message of the [ValueError].  A variable that is set to the empty
    string is falsy, like one that is not set. *)
Definition get_env_var (env : gmap string string) (var_name : string)
  : string + string :=
  match env !! var_name with
  | Some value => if decide (value = "") then inr (missing var_name) else inl value
  | None => inr (missing var_name)
  end.

(** The settings that the module reads when it is loaded. *)
Record config := Config {
  TELEGRAM_TOKEN : string;
  TWITTER_CONSUMER_KEY : string;
  TWITTER_CONSUMER_SECRET : string;
  TWITTER_ACCESS_TOKEN : string;
  TWITTER_ACCESS_TOKEN_SECRET : string;
  FARCASTER_AUTH_HEADER : string;
  IMGUR_CLIENT_ID : string;
  BLUESKY_HANDLE : string;
  BLUESKY_APP_PASSWORD : string
}.

(** The nine assignments, in the order of the file; the first [ValueError]
    ends the loading. *)
Definition load_config (env : gmap string string) : config + string :=
  match get_env_var env "TELEGRAM_BOT_TOKEN" with
  | inr e => inr e
  | inl telegram_token =>
  match get_env_var env "TWITTER_CONSUMER_KEY" with
  | inr e => inr e
  | inl consumer_key =>
  match get_env_var env "TWITTER_CONSUMER_SECRET" with
  | inr e => inr e
  | inl consumer_secret =>
  match get_env_var env "TWITTER_ACCESS_TOKEN" with
  | inr e => inr e
  | inl access_token =>
  match get_env_var env "TWITTER_ACCESS_TOKEN_SECRET" with
  | inr e => inr e
  | inl access_token_secret =>
  match get_env_var env "FARCASTER_AUTHORIZATION_HEADER" with
  | inr e => inr e
  | inl farcaster_auth_header =>
  match get_env_var env "IMGUR_CLIENT_ID" with
  | inr e => inr e
  | inl imgur_client_id =>
  match get_env_var env "BLUESKY_HANDLE" with
  | inr e => inr e
  | inl bluesky_handle =>
  match get_env_var env "BLUESKY_APP_PASSWORD" with
  | inr e => inr e
  | inl bluesky_app_password =>
      inl (Config telegram_token consumer_key consumer_secret access_token
             access_token_secret farcaster_auth_header imgur_client_id
             bluesky_handle bluesky_app_password)
  end end end end end end end end end.

(** The variables read, in the order in which they are read. *)
Definition required_variables : list string :=
  ["TELEGRAM_BOT_TOKEN"; "TWITTER_CONSUMER_KEY"; "TWITTER_CONSUMER_SECRET";
   "TWITTER_ACCESS_TOKEN"; "TWITTER_ACCESS_TOKEN_SECRET";
   "FARCASTER_AUTHORIZATION_HEADER"; "IMGUR_CLIENT_ID"; "BLUESKY_HANDLE";
   "BLUESKY_APP_PASSWORD"].

(** The variable is set, and not to the empty string. *)
Definition usable (env : gmap string string) (var_name : string) : Prop :=
  exists value, env !! var_name = Some value /\ value <> "".

(** ** Where what is published comes from *)

(** Some text update of [evs] carries the text [t]. *)
Definition received (evs : list event) (t : list N) : Prop :=
  exists user_id chat, Text user_id chat t ∈ evs.

(** Some photo update of [evs] was downloaded as [image_data]. *)
Definition downloaded (evs : list event) (image_data : list N) : Prop :=
  exists user_id chat, Photo user_id chat (Returned image_data) ∈ evs.

(** Every text that waits and everything published stems from [evs]. *)
Definition accounted (evs : list event) (st : state) : Prop :=
  (forall user_id p, pending_posts st !! user_id = Some p ->
     received evs (pp_text p))
  /\ (forall t image, (t, image) ∈ published st ->
        received evs t
        /\ forall image_data, image = Some image_data ->
             downloaded evs image_data).

(** * Properties *)

(** ** The debounce window *)

(** C1 (the code departs from it).  Specified: a second text within the
    window cancels the first timer, and exactly one publish fires, with the
    second text.  In the code the cancelled [wait_and_post] of the first
    text runs its [finally], which deletes the entry that [handle_message]
    has just stored for the second text: when the second timer elapses it
    finds no entry.  Nothing is published and nothing is sent, ever. *)
Theorem two_texts_publish_nothing :
  let st := run (fun _ => happy_world) (fun _ _ => None) two_texts initial in
  published st = [] /\ replies st = [] /\ pending_posts st = ∅
  /\ t_state <$> tasks st = [Done Cancelled; Done Completed].
Proof. vm_compute. repeat split. Qed.

(** When the second update is handled before the first task has taken its
    first step, the first coroutine never runs, its [finally] neither, and
    the second text is published. *)
Lemma two_texts_back_to_back_publish_second :
  let st := run (fun _ => happy_world) (fun _ _ => None)
                two_texts_back_to_back initial in
  published st = [(str "second", None)]
  /\ replies st = [(7%Z, "Posted: Bluesky, Farcaster, X"%string)].
Proof. vm_compute. repeat split. Qed.

(** ** The status string *)

(** C2, as worded, fails when no platform succeeded: the code puts no
    separator before a lone "Failed" clause. *)
Lemma status_all_failed_has_no_separator :
  status_message false false false = "Failed: Bluesky, Farcaster, X"%string
  /\ status_as_worded (succeeded false false false) (failed false false false)
     = " / Failed: Bluesky, Farcaster, X"%string
  /\ status_message false false false
     <> status_as_worded (succeeded false false false) (failed false false false).
Proof. vm_compute. repeat split. discriminate. Qed.

(** C2 (amended).  For every combination of the three success flags the
    status string is "Posted: " with the alphabetically sorted successful
    platforms, then " / Failed: " with the alphabetically sorted failed
    ones; a clause is there exactly when its list is not empty, and the
    separator " / " exactly when both are: with no success the string is
    "Failed: ..." alone. *)
Theorem status_message_clauses (twitter_success farcaster_success
    bluesky_success : bool) :
  let ok := succeeded twitter_success farcaster_success bluesky_success in
  let ko := failed twitter_success farcaster_success bluesky_success in
  status_message twitter_success farcaster_success bluesky_success
  = status_clauses ok ko
  /\ (occurs "Posted" (status_message twitter_success farcaster_success
                         bluesky_success) = false <-> ok = [])
  /\ (occurs "Failed" (status_message twitter_success farcaster_success
                         bluesky_success) = false <-> ko = [])
  /\ (occurs " / " (status_message twitter_success farcaster_success
                      bluesky_success) = true <-> ok <> [] /\ ko <> []).
Proof.
  destruct twitter_success, farcaster_success, bluesky_success;
    vm_compute; repeat split; intros; try discriminate; try tauto;
    try (destruct H; congruence).
Qed.

(** ** The normaliser: retained URLs *)

Lemma short_urls_spec (urls short : list (list N)) :
  short_urls urls = Some short ->
  sublist short urls
  /\ Forall (fun u => exists b, encode u = Some b /\ (length b <= 256)%nat) short.
Proof.
  revert short. induction urls as [|u r IH]; simpl; intros short H.
  - inversion H. split; constructor.
  - destruct (encode u) as [b|] eqn:Eb; [|discriminate].
    destruct (short_urls r) as [v|]; [|discriminate].
    destruct (IH v eq_refl) as [Hs Hf].
    destruct (Nat.leb_spec (length b) 256); inversion H; subst; split.
    + by constructor.
    + constructor; eauto.
    + by constructor.
    + done.
Qed.

(** What holds of the retained URLs on every input: at most two, each of
    at most 256 UTF-8 bytes, in the order of the matches they come from. *)
Lemma retained_urls_bounds (t : list N) (for_farcaster : bool)
    (cleaned : list N) (urls : list (list N)) :
  extract_and_clean_text t for_farcaster = Some (cleaned, urls) ->
  (length urls <= 2)%nat
  /\ Forall (fun u => exists b, encode u = Some b /\ (length b <= 256)%nat) urls
  /\ sublist urls (findall url_pattern t).
Proof.
  unfold extract_and_clean_text.
  destruct (short_urls (findall url_pattern t)) as [short|] eqn:E; [|discriminate].
  intros H. inversion H; subst. clear H.
  destruct (short_urls_spec _ _ E) as [Hs Hf].
  split; [|split].
  - rewrite length_take. lia.
  - by apply Forall_take.
  - etrans; [apply sublist_take|done].
Qed.

(** C3 (the code departs from it).  Specified: every matched URL is
    removed from the cleaned text.  The code removes each matched string
    with [str.replace], wherever that string occurs: on
    ["www.a http://www.ax"] the first URL is also cut out of the middle of
    the second, the second is then no longer found, and the cleaned text is
    ["http://x"], a URL.  (Both URLs are retained, as specified.) *)
Theorem cleaned_text_keeps_a_url :
  extract_and_clean_text (str "www.a http://www.ax") false
  = Some (str "http://x", [str "www.a"; str "http://www.ax"])
  /\ extract_and_clean_text (str "www.a http://www.ax") true
     = Some (str "http://x", [str "www.a"; str "http://www.ax"])
  /\ findall url_pattern (str "http://x") = [str "http://x"].
Proof. vm_compute. repeat split. Qed.

(** ** The retry executor *)



(** A failure that is no HTTP 429, with no [response] attribute or with a
    response of another status, propagates from the invocation it occurs
    in. *)
Lemma retry_loop_hard_failure {A} (func : nat -> result A) (rnd : nat -> Q)
    (attempt budget : nat) (last : option exn) (slept : list Q) (e : exn) :
  func attempt = Raised e ->
  (exn_response e = None
   \/ exists code, exn_response e = Some (Some code) /\ code <> 429%Z) ->
  retry_loop func rnd attempt (S budget) last slept
  = (Raised e, RetryTrace (S attempt) slept).
Proof.
  intros Hf [Hr|(code & Hr & Hc)]; simpl; rewrite Hf, Hr; [done|].
  destruct (Z.eqb_spec code 429); [done|done].
Qed.

(** While the operation answers 429, the loop sleeps the backoff delay of
    the attempt and goes on; when the budget is used up, the last failure
    propagates. *)
Lemma retry_loop_rate_limited {A} (func : nat -> result A) (rnd : nat -> Q)
    (budget attempt : nat) (last : option exn) (slept : list Q) :
  (forall k, (attempt <= k < attempt + budget)%nat ->
     exists e, func k = Raised e /\ exn_response e = Some (Some 429%Z)) ->
  retry_loop func rnd attempt budget last slept
  = (Raised (match budget with
             | O => default TypeError last
             | S b => match func (attempt + b)%nat with
                      | Raised e => e
                      | Returned _ => TypeError
                      end
             end),
     RetryTrace (attempt + budget)
       (slept ++ List.map (fun k => exponential_backoff (Z.of_nat k) 32 (rnd k))
                          (seq attempt budget))).
Proof.
  revert attempt last slept.
  induction budget as [|b IH]; intros attempt last slept H; simpl.
  - by rewrite Nat.add_0_r, app_nil_r.
  - destruct (H attempt) as (e & He & Hr); [lia|].
    rewrite He, Hr. simpl.
    rewrite IH by (intros k Hk; apply H; lia).
    rewrite <- app_assoc. simpl.
    replace (S (attempt + b))%nat with (attempt + S b)%nat by lia.
    f_equal. f_equal. destruct b as [|b'].
    + by rewrite Nat.add_0_r, He.
    + by replace (S (attempt + b'))%nat with (attempt + S b')%nat by lia.
Qed.

(** Three rate limits in a row: three invocations, a sleep after each (the
    last one too), and the last failure is raised. *)
Lemma rate_limited_throughout (rnd : nat -> Q) :
  post_with_retry (A := Z) (fun _ => Raised TooManyRequests) rnd
                  default_max_retries
  = (Raised TooManyRequests,
     RetryTrace 3 [exponential_backoff 0 32 (rnd 0%nat);
                   exponential_backoff 1 32 (rnd 1%nat);
                   exponential_backoff 2 32 (rnd 2%nat)]).
Proof. reflexivity. Qed.

(** A rate limit, then an answer: two invocations and one sleep. *)
Lemma rate_limited_once (rnd : nat -> Q) :
  post_with_retry
    (fun k => match k with O => Raised TooManyRequests | _ => Returned 200%Z end)
    rnd default_max_retries
  = (Returned 200%Z, RetryTrace 2 [exponential_backoff 0 32 (rnd 0%nat)]).
Proof. reflexivity. Qed.

(** With no budget the operation is not invoked and [raise None] is a
    [TypeError]. *)
Lemma no_budget (rnd : nat -> Q) (max_retries : Z) :
  (max_retries <= 0)%Z ->
  post_with_retry (A := Z) (fun _ => Returned 200%Z) rnd max_retries
  = (Raised TypeError, RetryTrace 0 []).
Proof.
  intros H. unfold post_with_retry.
  by replace (Z.to_nat max_retries) with 0%nat by lia.
Qed.

(** C5 (the code departs from it).  Specified: a failure that is not a
    rate limit propagates at once.  A [requests] connection error carries
    [response = None]: the test [e.response.status_code == 429] itself
    raises [AttributeError] inside the handler, and that exception, not the
    failure of the operation, is what the caller gets (after one
    invocation and no sleep). *)
Theorem connection_error_is_masked (rnd : nat -> Q) :
  post_with_retry (A := Z) (fun _ => Raised ConnectionError) rnd
                  default_max_retries
  = (Raised AttributeError, RetryTrace 1 [])
  /\ AttributeError <> ConnectionError.
Proof. split; [reflexivity|discriminate]. Qed.

(** ** The backoff delay *)




(** ** The fan-out coordinator *)





(** ** Cleanup of the pending-post table *)

Section ManagerProperties.

Variable w : nat -> world.
Variable send_raises : Z -> string -> option exn.

Lemma send_message_frame (chat : Z) (msg : string) (st : state) :
  pending_posts (fst (send_message send_raises chat msg st)) = pending_posts st
  /\ tasks (fst (send_message send_raises chat msg st)) = tasks st.
Proof. unfold send_message. by destruct (send_raises chat msg). Qed.

Lemma wait_and_post_elapsed_frame (user_id : string) (st : state) :
  pending_posts (fst (wait_and_post_elapsed w send_raises user_id st))
  = delete user_id (pending_posts st)
  /\ tasks (fst (wait_and_post_elapsed w send_raises user_id st)) = tasks st.
Proof.
  unfold wait_and_post_elapsed, call_post_to_social, send_message.
  repeat case_match; simplify_eq/=; done.
Qed.

Lemma finish_lookup (i j : nat) (s : task_state) (st : state) :
  tasks (finish i s st) !! j
  = if decide (i = j)
    then (fun t => Task (t_user t) s (t_cancel_requested t)) <$> tasks st !! j
    else tasks st !! j.
Proof.
  unfold finish; simpl. case_decide as Hij.
  - subst j. destruct (tasks st !! i) as [t|] eqn:E; simpl; [|done].
    apply list_lookup_insert_eq. by eapply lookup_lt_Some.
  - destruct (tasks st !! i); [|done]. by apply list_lookup_insert_ne.
Qed.

Lemma cancel_lookup (i j : nat) (st : state) :
  tasks (cancel i st) !! j
  = if decide (i = j)
    then (fun t => match t_state t with
                   | Done _ => t
                   | _ => Task (t_user t) (t_state t) true
                   end) <$> tasks st !! j
    else tasks st !! j.
Proof.
  unfold cancel; simpl. case_decide as Hij.
  - subst j. destruct (tasks st !! i) as [t|] eqn:E; simpl; [|done].
    destruct (t_state t); try done;
      apply list_lookup_insert_eq; by eapply lookup_lt_Some.
  - destruct (tasks st !! i) as [t|]; [|done].
    destruct (t_state t); try done; by apply list_lookup_insert_ne.
Qed.

(** A step of a task keeps the entry of every user attached to a live
    task of that user. *)
Lemma run_task_entry (user_id : string) (i : nat) (st : state) :
  entry_has_task user_id st ->
  entry_has_task user_id (run_task w send_raises i st).
Proof.
  intros Hinv. unfold run_task.
  destruct (tasks st !! i) as [t|] eqn:Ei; [|done].
  destruct (t_state t) as [|wake|c] eqn:Es; [| |done].
  - (* first step, or cancelled before it *)
    intros p Hp.
    assert (Hp' : pending_posts st !! user_id = Some p)
      by (destruct (t_cancel_requested t); exact Hp).
    destruct (Hinv p Hp') as (t' & Ht' & Hu & Hc & Hd).
    destruct (decide (i = pp_task p)) as [->|Hne].
    + assert (t' = t) by congruence. subst t'.
      rewrite Hc. exists (Task (t_user t) (Sleeping (now st + 36)) (t_cancel_requested t)).
      rewrite finish_lookup, decide_True by done. rewrite Ei. simpl.
      repeat split; done.
    + exists t'. destruct (t_cancel_requested t);
        rewrite finish_lookup, decide_False by done; done.
  - (* woken in the sleep *)
    assert (Hframe : forall st' c,
      pending_posts st' = delete (t_user t) (pending_posts st) ->
      tasks st' = tasks st ->
      entry_has_task user_id (finish i (Done c) st')).
    { intros st' c Hpend Htasks p Hp. simpl in Hp. rewrite Hpend in Hp.
      destruct (decide (t_user t = user_id)) as [Hu|Hu].
      - subst user_id. by rewrite lookup_delete_eq in Hp.
      - rewrite lookup_delete_ne in Hp by done.
        destruct (Hinv p Hp) as (t' & Ht' & Hu' & Hl).
        exists t'. rewrite finish_lookup, Htasks.
        rewrite decide_False; [done|]. intros ->. congruence. }
    destruct (t_cancel_requested t).
    + by apply Hframe.
    + destruct (wake <=? now st)%Z; [|done].
      destruct (wait_and_post_elapsed w send_raises (t_user t) st)
        as [st' c] eqn:E.
      pose proof (wait_and_post_elapsed_frame (t_user t) st) as [H1 H2].
      rewrite E in H1, H2. by apply Hframe.
Qed.

Lemma loop_turn_entry (user_id : string) (st : state) :
  entry_has_task user_id st ->
  entry_has_task user_id (loop_turn w send_raises st).
Proof.
  unfold loop_turn. generalize (seq 0 (length (tasks st))).
  intros l. revert st. induction l as [|i l IH]; intros st H; simpl; [done|].
  apply IH. by apply run_task_entry.
Qed.

Lemma cancel_other_entry (user_id : string) (i : nat) (st : state) :
  (forall t, tasks st !! i = Some t -> t_user t <> user_id) ->
  entry_has_task user_id st -> entry_has_task user_id (cancel i st).
Proof.
  intros Hi Hinv p Hp. destruct (Hinv p Hp) as (t' & Ht' & Hu & Hl).
  exists t'. rewrite cancel_lookup, decide_False; [done|].
  intros ->. by apply (Hi t').
Qed.

Lemma cancel_length (i : nat) (st : state) :
  length (tasks (cancel i st)) = length (tasks st).
Proof.
  unfold cancel; simpl. destruct (tasks st !! i) as [t|]; [|done].
  destruct (t_state t); try done; apply length_insert.
Qed.

Lemma handle_message_no_orphan (user_id : string) (chat : Z) (t : list N)
    (st : state) :
  no_orphan st ->
  no_orphan (fst (handle_message user_id chat t st)).
Proof.
  intros Hinv. unfold handle_message.
  destruct (extract_and_clean_text t false) as [_|]; [|done]. simpl.
  set (st1 := match pending_posts st !! user_id with
              | Some post_data => cancel (pp_task post_data) st
              | None => st
              end).
  assert (Hpend : pending_posts st1 = pending_posts st)
    by (unfold st1; by destruct (pending_posts st !! user_id)).
  assert (Hother : forall u, u <> user_id -> entry_has_task u st1).
  { intros u Hu. unfold st1.
    destruct (pending_posts st !! user_id) as [p|] eqn:Ep; [|apply Hinv].
    apply cancel_other_entry; [|apply Hinv].
    intros t0 Ht0. destruct (Hinv user_id p Ep) as (t' & Ht' & Hu' & _).
    congruence. }
  intros u p Hp. simpl in Hp. rewrite Hpend in Hp.
  destruct (decide (user_id = u)) as [<-|Hne].
  - rewrite lookup_insert_eq in Hp. inversion Hp; subst; clear Hp. simpl.
    exists (Task user_id Created false). split; [|by repeat split].
    rewrite lookup_app_r by done. by rewrite Nat.sub_diag.
  - rewrite lookup_insert_ne in Hp by done. rewrite <- Hpend in Hp.
    destruct (Hother u ltac:(done) p Hp) as (t' & Ht' & Hl).
    exists t'. split; [|done]. simpl.
    rewrite lookup_app_l; [done|]. by eapply lookup_lt_Some.
Qed.

Lemma handle_photo_frame (user_id : string) (chat : Z)
    (download : result (list N)) (st : state) :
  match pending_posts st !! user_id with
  | None =>
      pending_posts (fst (handle_photo w send_raises user_id chat download st))
      = pending_posts st
      /\ tasks (fst (handle_photo w send_raises user_id chat download st))
         = tasks st
  | Some p =>
      let st' := loop_turn w send_raises (cancel (pp_task p) st) in
      pending_posts (fst (handle_photo w send_raises user_id chat download st))
      = delete user_id (pending_posts st')
      /\ tasks (fst (handle_photo w send_raises user_id chat download st))
         = tasks st'
  end.
Proof.
  unfold handle_photo.
  destruct (pending_posts st !! user_id) as [p|].
  - unfold call_post_to_social, send_message.
    repeat case_match; simplify_eq/=; done.
  - unfold send_message. by destruct (send_raises chat _).
Qed.

Lemma handle_photo_no_orphan (user_id : string) (chat : Z)
    (download : result (list N)) (st : state) :
  no_orphan st ->
  no_orphan (fst (handle_photo w send_raises user_id chat download st)).
Proof.
  intros Hinv u q Hq.
  pose proof (handle_photo_frame user_id chat download st) as Hf.
  destruct (pending_posts st !! user_id) as [p|] eqn:Ep.
  - destruct Hf as [Hpend Htasks]. rewrite Hpend in Hq. rewrite Htasks.
    destruct (decide (user_id = u)) as [<-|Hne].
    + by rewrite lookup_delete_eq in Hq.
    + rewrite lookup_delete_ne in Hq by done.
      refine (loop_turn_entry u _ _ q Hq).
      apply cancel_other_entry; [|apply Hinv].
      intros t0 Ht0. destruct (Hinv user_id p Ep) as (t' & Ht' & Hu' & _).
      congruence.
  - destruct Hf as [Hpend Htasks]. rewrite Hpend in Hq. rewrite Htasks.
    by apply Hinv.
Qed.

Lemma step_no_orphan (st : state) (ev : event) :
  no_orphan st -> no_orphan (step w send_raises st ev).
Proof.
  intros Hinv. destruct ev as [u c t|u c d|dt]; simpl.
  - by apply handle_message_no_orphan.
  - by apply handle_photo_no_orphan.
  - intros u. apply loop_turn_entry.
    exact (loop_turn_entry u st (Hinv u)).
Qed.

Lemma run_no_orphan (evs : list event) (st : state) :
  no_orphan st -> no_orphan (run w send_raises evs st).
Proof.
  unfold run. revert st.
  induction evs as [|ev evs IH]; intros st H; simpl; [done|].
  apply IH. by apply step_no_orphan.
Qed.

(** C9.  Every way in which a started [wait_and_post] and every way in
    which [handle_photo] ends leaves no entry of the user in
    [pending_posts]: the body after the sleep (whether the publish
    succeeded, an error was caught, or an exception escaped), the
    cancellation in the sleep, and the photo handler (with or without an
    entry to begin with).  In terms of the loop: a step that ends a
    suspended task leaves no entry of its user.  In every state that the
    process reaches, each entry, at most one per user since the table is
    keyed by user, names a live task of that user: none is orphaned. *)
Theorem pending_entry_cleanup :
  (forall user_id st,
     pending_posts (fst (wait_and_post_elapsed w send_raises user_id st))
       !! user_id = None)
  /\ (forall user_id st,
       pending_posts (fst (wait_and_post_cancelled user_id st)) !! user_id
       = None)
  /\ (forall user_id chat download st,
       pending_posts (fst (handle_photo w send_raises user_id chat download st))
         !! user_id = None)
  /\ (forall i st t wake,
       tasks st !! i = Some t -> t_state t = Sleeping wake ->
       task_done i (run_task w send_raises i st) ->
       pending_posts (run_task w send_raises i st) !! t_user t = None)
  /\ (forall evs, no_orphan (run w send_raises evs initial)).
Proof.
  split; [|split; [|split; [|split]]].
  - intros u st. destruct (wait_and_post_elapsed_frame u st) as [-> _].
    apply lookup_delete_eq.
  - intros u st. apply lookup_delete_eq.
  - intros u chat d st. pose proof (handle_photo_frame u chat d st) as Hf.
    destruct (pending_posts st !! u) eqn:E.
    + destruct Hf as [-> _]. apply lookup_delete_eq.
    + destruct Hf as [-> _]. exact E.
  - intros i st t wake Hi Hs. unfold run_task. rewrite Hi, Hs.
    destruct (t_cancel_requested t).
    + intros _. simpl. apply lookup_delete_eq.
    + destruct (wake <=? now st)%Z.
      * intros _.
        destruct (wait_and_post_elapsed w send_raises (t_user t) st)
          as [st' c] eqn:E.
        pose proof (wait_and_post_elapsed_frame (t_user t) st) as [H1 _].
        rewrite E in H1. simpl in *. rewrite H1. apply lookup_delete_eq.
      * intros (t' & c & Ht' & Hc). congruence.
  - intros evs. apply run_no_orphan. intros u p Hp.
    unfold initial in Hp. simpl in Hp. by rewrite lookup_empty in Hp.
Qed.

End ManagerProperties.

(** The three ways out of [wait_and_post] after its sleep: the publish
    succeeded and its status went out; sending the status raised, the error
    was caught and the failure notice went out; the failure notice could not
    be sent either and the exception escaped. *)
Lemma wait_and_post_exits :
  let st := State {[alice := PendingPost (str "a") 0 0 7 None]}
                  [Task alice (Sleeping 36) false] 36 [] [] in
  let boom := Exn "NetworkError" None in
  let notice_only (chat : Z) (msg : string) :=
    if String.eqb msg failure_notice then None else Some boom in
  let run_with send := wait_and_post_elapsed (fun _ => happy_world) send alice st in
  (snd (run_with (fun _ _ => None)) = Completed
   /\ replies (fst (run_with (fun _ _ => None)))
      = [(7%Z, "Posted: Bluesky, Farcaster, X"%string)])
  /\ (snd (run_with notice_only) = Completed
      /\ replies (fst (run_with notice_only)) = [(7%Z, failure_notice)])
  /\ (snd (run_with (fun _ _ => Some boom)) = Escaped boom
      /\ replies (fst (run_with (fun _ _ => Some boom))) = []).
Proof. vm_compute. repeat split. Qed.

Lemma pending_entry_cleanup_witness :
  let st := State {[alice := PendingPost (str "a") 0 0 7 None]}
                  [Task alice (Sleeping 36) false] 36 [] [] in
  pending_posts (run_task (fun _ => happy_world) (fun _ _ => None) 0 st)
    !! alice = None.
Proof.
  intros st.
  destruct (pending_entry_cleanup (fun _ => happy_world) (fun _ _ => None))
    as (_ & _ & _ & H & _).
  apply (H 0%nat st (Task alice (Sleeping 36) false) 36%Z).
  - reflexivity.
  - reflexivity.
  - eexists; eexists. split; vm_compute; reflexivity.
Defined.

(** ** UTF-8 *)

Ltac div_lia := zify; Z.to_euclidean_division_equations; lia.

(** An ASCII character is its own encoding; every byte of the encoding of
    another character has its high bit set. *)
Lemma utf8_encode_cp_bytes (c : N) (b : list N) :
  utf8_encode_cp c = Some b ->
  (c < 128 /\ b = [c])
  \/ (128 <= c /\ b <> [] /\ Forall (fun x => 128 <= x) b).
Proof.
  unfold utf8_encode_cp.
  destruct (N.ltb_spec c 128); [intros [= <-]; by left|].
  destruct (N.ltb_spec c 2048).
  { intros [= <-]. right. repeat split; [done|done|].
    repeat (apply List.Forall_cons; [div_lia|]); apply List.Forall_nil. }
  destruct (N.ltb_spec c 65536).
  { destruct (is_surrogate c); [done|]. intros [= <-].
    right. repeat split; [done|done|]. repeat (apply List.Forall_cons; [div_lia|]); apply List.Forall_nil. }
  destruct (N.ltb_spec c 1114112); [|done].
  intros [= <-]. right. repeat split; [done|done|]. repeat (apply List.Forall_cons; [div_lia|]); apply List.Forall_nil.
Qed.

Lemma utf8_encode_cp_is_Some (c : N) :
  is_Some (utf8_encode_cp c) <-> is_codepoint c /\ is_surrogate c = false.
Proof.
  unfold utf8_encode_cp, is_codepoint, is_surrogate.
  destruct (N.ltb_spec c 128).
  { split; [intros _|by eauto]. split; [lia|].
    apply andb_false_iff. left. apply N.leb_gt. lia. }
  destruct (N.ltb_spec c 2048).
  { split; [intros _|by eauto]. split; [lia|].
    apply andb_false_iff. left. apply N.leb_gt. lia. }
  destruct (N.ltb_spec c 65536).
  { destruct ((55296 <=? c) && (c <=? 57343)) eqn:E.
    - split; [by intros [? [=]]|by intros [_ [=]]].
    - split; [intros _; split; [lia|done]|by eauto]. }
  destruct (N.ltb_spec c 1114112).
  { split; [intros _|by eauto]. split; [lia|].
    apply andb_false_iff. right. apply N.leb_gt. lia. }
  split; [by intros [? [=]]|intros [? _]; lia].
Qed.

Ltac decide_ltb :=
  repeat match goal with
  | |- context [?a <? ?b] =>
      first [ replace (a <? b) with true by (symmetry; apply N.ltb_lt; div_lia)
            | replace (a <? b) with false by (symmetry; apply N.ltb_ge; div_lia) ]
  | |- context [?a <=? ?b] =>
      first [ replace (a <=? b) with true by (symmetry; apply N.leb_le; div_lia)
            | replace (a <=? b) with false by (symmetry; apply N.leb_gt; div_lia) ]
  end.

(** Decoding undoes the encoding of one character. *)
Lemma decode_encode_cp (c : N) (b rest : list N) :
  utf8_encode_cp c = Some b ->
  decode (b ++ rest) = cons c <$> decode rest.
Proof.
  unfold utf8_encode_cp.
  destruct (N.ltb_spec c 128) as [H1|H1].
  { intros [= <-]. simpl. by replace (c <? 128) with true
      by (symmetry; apply N.ltb_lt; lia). }
  destruct (N.ltb_spec c 2048) as [H2|H2].
  { intros [= <-]. cbn [app decode]. unfold is_cont. decide_ltb. simpl.
    by replace ((192 + c / 64 - 192) * 64 + (128 + c mod 64 - 128)) with c
      by div_lia. }
  destruct (N.ltb_spec c 65536) as [H3|H3].
  { destruct (is_surrogate c) eqn:Hs; [done|]. intros [= <-].
    cbn [app decode]. unfold is_cont. cbv zeta.
    replace ((224 + c / 4096 - 224) * 4096 + (128 + (c / 64) mod 64 - 128) * 64
             + (128 + c mod 64 - 128)) with c by div_lia.
    rewrite Hs. decide_ltb. done. }
  destruct (N.ltb_spec c 1114112) as [H4|H4]; [|done].
  intros [= <-]. cbn [app decode]. unfold is_cont. cbv zeta.
  replace ((240 + c / 262144 - 240) * 262144
           + (128 + (c / 4096) mod 64 - 128) * 4096
           + (128 + (c / 64) mod 64 - 128) * 64 + (128 + c mod 64 - 128))
    with c by div_lia.
  decide_ltb. done.
Qed.

Lemma encode_app (s1 s2 : list N) :
  encode (s1 ++ s2)
  = match encode s1, encode s2 with
    | Some b1, Some b2 => Some (b1 ++ b2)
    | _, _ => None
    end.
Proof.
  induction s1 as [|c s1 IH]; simpl.
  - by destruct (encode s2).
  - rewrite IH. destruct (utf8_encode_cp c) as [bc|]; [|done].
    destruct (encode s1) as [b1|]; [|done].
    destruct (encode s2) as [b2|]; [|done].
    by rewrite app_assoc.
Qed.

(** [s.encode('UTF-8').decode('UTF-8') == s]. *)
Lemma decode_encode (s b : list N) : encode s = Some b -> decode b = Some s.
Proof.
  revert b. induction s as [|c s IH]; simpl; intros b.
  - by intros [= <-].
  - destruct (utf8_encode_cp c) as [bc|] eqn:Ec; [|done].
    destruct (encode s) as [bs|]; [|done]. intros [= <-].
    rewrite (decode_encode_cp c bc bs Ec), (IH bs eq_refl). done.
Qed.

(** [encode] raises on nothing but a lone surrogate. *)
Lemma encodable_encode (s : list N) : encodable s <-> is_Some (encode s).
Proof.
  unfold encodable. induction s as [|c s IH]; simpl.
  - split; [by eauto|constructor].
  - rewrite Forall_cons, IH, <- utf8_encode_cp_is_Some.
    destruct (utf8_encode_cp c), (encode s); split;
      try (intros [[? [=]] ?]); try (intros [? [? [=]]]);
      try (intros [? [=]]); eauto.
Qed.

(** ** Matches *)

Lemma strip_prefix_spec (p s r : list N) :
  strip_prefix p s = Some r -> s = p ++ r.
Proof.
  revert s. induction p as [|a p IH]; intros [|b s]; simpl; try done.
  - by intros [= <-].
  - by intros [= <-].
  - destruct (N.eqb_spec a b) as [->|]; [|done].
    intros H. by rewrite (IH s H).
Qed.

Lemma run_length_le (p : N -> bool) (s : list N) :
  (run_length p s <= length s)%nat.
Proof. induction s as [|c s IH]; simpl; [lia|]. destruct (p c); simpl; lia. Qed.

(** A run stops at the end or at a character outside of it. *)
Lemma run_length_stop (p : N -> bool) (s : list N) (x : N) :
  s !! run_length p s = Some x -> p x = false.
Proof.
  induction s as [|c s IH]; simpl; [done|].
  destruct (p c) eqn:E; simpl; [done|]. by intros [= <-].
Qed.

Lemma match_lit_nonspace_spec (sp : N -> bool) (lit s : list N) (n : nat) :
  match_lit_nonspace sp lit s = Some n ->
  take (length lit) s = lit
  /\ (length lit < n <= length s)%nat
  /\ (forall x, s !! n = Some x -> sp x = true).
Proof.
  unfold match_lit_nonspace.
  destruct (strip_prefix lit s) as [r|] eqn:Ep; [|done].
  apply strip_prefix_spec in Ep. subst s.
  destruct (run_length (fun c => negb (sp c)) r) as [|k] eqn:Er; [done|].
  intros [= <-].
  pose proof (run_length_le (fun c => negb (sp c)) r) as Hle.
  rewrite Er in Hle. split; [|split].
  - by rewrite take_app_length.
  - rewrite length_app. lia.
  - intros x. rewrite lookup_app_r by lia.
    replace (length lit + S k - length lit)%nat with (S k) by lia.
    rewrite <- Er. intros Hx.
    apply run_length_stop in Hx. by destruct (sp x).
Qed.

(** A match of [https?://\S+] begins with [h], is not empty, and ends at
    the end of the input or before a whitespace. *)
Lemma match_http_spec (sp : N -> bool) (s : list N) (n : nat) :
  match_http sp s = Some n ->
  s !! 0%nat = Some 104
  /\ (0 < n <= length s)%nat
  /\ (forall x, s !! n = Some x -> sp x = true).
Proof.
  unfold match_http.
  destruct (match_lit_nonspace sp (str "https://") s) as [m|] eqn:E.
  - intros [= <-]. apply match_lit_nonspace_spec in E as (Hp & Hn & Hs).
    split; [|split; [lia|done]].
    destruct s as [|c s]; [done|]. by inversion Hp.
  - intros E'. apply match_lit_nonspace_spec in E' as (Hp & Hn & Hs).
    split; [|split; [lia|done]].
    destruct s as [|c s]; [done|]. by inversion Hp.
Qed.

Lemma isspace_ascii_lt (x : N) : isspace_ascii x = true -> x < 128.
Proof.
  unfold isspace_ascii.
  rewrite orb_true_iff, andb_true_iff, !N.leb_le, N.eqb_eq. lia.
Qed.

(** The spans of [finditer]: each is a match of the pattern where it
    starts, past the characters to skip. *)
Lemma finditer_from_spans (m : list N -> option nat) (pos skip : nat)
    (s : list N) :
  Forall (fun sp => exists k n,
            fst sp = (pos + k)%nat /\ snd sp = (pos + k + S n)%nat
            /\ (skip <= k < length s)%nat /\ m (drop k s) = Some (S n))
         (finditer_from m pos skip s).
Proof.
  revert pos skip. induction s as [|c r IH]; intros pos skip; simpl.
  { constructor. }
  assert (Hshift : forall sk, (skip - 1 <= sk)%nat ->
    Forall (fun sp => exists k n,
              fst sp = (pos + k)%nat /\ snd sp = (pos + k + S n)%nat
              /\ (skip <= k < S (length r))%nat
              /\ m (drop k (c :: r)) = Some (S n))
           (finditer_from m (S pos) sk r)).
  { intros sk Hsk. eapply Forall_impl; [apply IH|].
    intros sp (k & n & H1 & H2 & H3 & H4). exists (S k), n.
    repeat split; simpl; try lia; done. }
  destruct skip as [|k'].
  - destruct (m (c :: r)) as [[|n]|] eqn:Em.
    + apply Hshift. lia.
    + constructor.
      * exists 0%nat, n. simpl. repeat split; try lia; done.
      * apply Hshift. lia.
    + apply Hshift. lia.
  - apply Hshift. lia.
Qed.

(** The spans of [finditer] come in order and do not overlap. *)
Lemma finditer_from_sorted (m : list N -> option nat) (pos skip : nat)
    (s : list N) :
  StronglySorted (fun a b => (snd a <= fst b)%nat) (finditer_from m pos skip s).
Proof.
  revert pos skip. induction s as [|c r IH]; intros pos skip; simpl.
  { constructor. }
  destruct skip as [|k']; [|apply IH].
  destruct (m (c :: r)) as [[|n]|]; try apply IH.
  constructor; [apply IH|].
  eapply Forall_impl; [apply finditer_from_spans|].
  intros sp (k & n' & H1 & _ & H3 & _). simpl. lia.
Qed.

(** ** Link facets *)

(** In the bytes of an encoded string, a position that holds an ASCII byte,
    or is the end, is the byte index of a character. *)
Lemma ascii_boundary (t b : list N) (p : nat) :
  encode t = Some b -> (p <= length b)%nat ->
  (forall x, b !! p = Some x -> x < 128) ->
  exists i, (i <= length t)%nat
            /\ encode (take i t) = Some (take p b)
            /\ encode (drop i t) = Some (drop p b)
            /\ t !! i = b !! p.
Proof.
  revert b p. induction t as [|c r IH]; intros b p He Hp Hascii.
  - simpl in He. inversion He; subst. simpl in Hp.
    exists 0%nat. replace p with 0%nat by lia. done.
  - simpl in He.
    destruct (utf8_encode_cp c) as [bc|] eqn:Ec; [|done].
    destruct (encode r) as [br|] eqn:Er; [|done].
    inversion He; subst b; clear He.
    destruct (decide (p < length bc)%nat) as [Hlt|Hge].
    + destruct (utf8_encode_cp_bytes c bc Ec) as [[Hc ->]|(Hc & Hne & Hall)].
      * simpl in Hlt. assert (p = 0%nat) by lia. subst p.
        exists 0%nat. simpl. rewrite Ec, Er. repeat split; try done. lia.
      * exfalso. destruct (lookup_lt_is_Some_2 bc p Hlt) as [x Hx].
        pose proof (Forall_lookup_1 _ _ _ _ Hall Hx) as Hbig.
        specialize (Hascii x). rewrite lookup_app_l in Hascii by done.
        specialize (Hascii Hx). simpl in Hbig. lia.
    + rewrite length_app in Hp.
      destruct (IH br (p - length bc)%nat) as (i & Hi & Ht & Hd & Hl);
        [done|lia| |].
      { intros x Hx. apply Hascii. by rewrite lookup_app_r by lia. }
      exists (S i). simpl. rewrite Ec, Ht, Hd.
      rewrite take_app_ge, drop_app_ge, lookup_app_r by lia.
      repeat split; try done. lia.
Qed.

(** A match of the link pattern in the encoded text covers whole
    characters. *)
Lemma link_span_boundaries (t b : list N) (k n : nat) :
  encode t = Some b -> (k < length b)%nat ->
  link_pattern (drop k b) = Some (S n) ->
  exists i j,
    (i < j <= length t)%nat
    /\ encode (take i t) = Some (take k b)
    /\ encode (take j t) = Some (take (k + S n) b)
    /\ encode (slice i j t) = Some (slice k (k + S n) b)
    /\ t !! i = Some 104
    /\ (k + S n <= length b)%nat.
Proof.
  intros He Hk Hm. apply match_http_spec in Hm as (Hh & Hn & Hend).
  rewrite lookup_drop, Nat.add_0_r in Hh. rewrite length_drop in Hn.
  destruct (ascii_boundary t b k He) as (i & Hi & Hti & Hdi & Hli); [lia| |].
  { intros x Hx. rewrite Hh in Hx. inversion Hx. lia. }
  destruct (ascii_boundary (drop i t) (drop k b) (S n) Hdi)
    as (i' & Hi' & Hti' & _ & _).
  { rewrite length_drop. lia. }
  { intros x Hx. apply isspace_ascii_lt. by apply Hend. }
  rewrite length_drop in Hi'.
  assert (i' <> 0%nat).
  { intros ->. rewrite take_0 in Hti'. simpl in Hti'.
    destruct (drop k b) as [|x l] eqn:Ed; [|done].
    apply (f_equal length) in Ed. rewrite length_drop in Ed. simpl in Ed. lia. }
  exists i, (i + i')%nat. split; [lia|]. split; [done|]. split; [|split; [|split]].
  - rewrite <- take_take_drop, encode_app, Hti, Hti'.
    by rewrite take_take_drop.
  - unfold slice. replace (i + i' - i)%nat with i' by lia.
    by replace (k + S n - k)%nat with (S n) by lia.
  - by rewrite Hli.
  - lia.
Qed.

(** What [parse_links] computes on a string that encodes to [b]: one facet
    per match of the link pattern in [b], each covering whole characters. *)
Lemma parse_links_facets (t b : list N) :
  encode t = Some b ->
  exists fs,
    parse_links t = Some fs
    /\ facet_span <$> fs = finditer link_pattern b
    /\ Forall (fun f =>
         (byteStart f < byteEnd f <= length b)%nat
         /\ link_pattern (drop (byteStart f) b) = Some (byteEnd f - byteStart f)%nat
         /\ decode (slice (byteStart f) (byteEnd f) b) = Some (uri f)
         /\ exists i j, facet_covers t f i j) fs.
Proof.
  intros He. unfold parse_links. rewrite He. unfold finditer.
  pose proof (finditer_from_spans link_pattern 0 0 b) as Hspans.
  induction Hspans as [|sp l (k & n & H1 & H2 & H3 & H4) _ IH].
  { exists []. repeat split; constructor. }
  destruct IH as (fs & Hfs & Hsp & Hall).
  destruct sp as [s e]. simpl in H1, H2. subst s e.
  destruct (link_span_boundaries t b k n He ltac:(lia) H4)
    as (i & j & Hij & Hi & Hj & Hs & Hh & Hle).
  exists (Facet k (k + S n) (slice i j t) :: fs).
  split; [|split].
  - simpl. rewrite (decode_encode _ _ Hs). simpl.
    simpl in Hfs. by rewrite Hfs.
  - rewrite fmap_cons, Hsp. done.
  - constructor; [|done]. simpl. split; [lia|]. split; [|split].
    + by replace (k + S n - k)%nat with (S n) by lia.
    + by apply decode_encode.
    + exists i, j. unfold facet_covers, byte_index. simpl.
      rewrite Hi, Hj. simpl.
      rewrite !length_take_le by lia. done.
Qed.

(** C7.  Each facet of [parse_links] records the start and the end of a
    match of the link pattern in the UTF-8 bytes of the text: [byteStart]
    is the byte index of the [h] the link begins with, that is the number
    of bytes encoding the characters before it, [byteEnd] the byte index of
    the character after the link, and the URI is the text between.  On
    ["see http://a.co here"] the facet starts at byte 4; on
    ["é€ http://a.co"], whose [h] is character 3, it starts at byte 6. *)
Theorem facet_byte_offsets (t : list N) (fs : list facet) :
  parse_links t = Some fs ->
  (exists b, encode t = Some b
     /\ facet_span <$> fs = finditer link_pattern b
     /\ Forall (fun f =>
          link_pattern (drop (byteStart f) b)
          = Some (byteEnd f - byteStart f)%nat) fs)
  /\ Forall (fun f => exists i j, facet_covers t f i j) fs
  /\ parse_links (str "see http://a.co here")
     = Some [Facet 4 15 (str "http://a.co")]
  /\ parse_links ([233; 8364] ++ str " http://a.co")
     = Some [Facet 6 17 (str "http://a.co")]
  /\ facet_covers ([233; 8364] ++ str " http://a.co")
       (Facet 6 17 (str "http://a.co")) 3 14.
Proof.
  intros Hp.
  destruct (encode t) as [b|] eqn:He;
    [|unfold parse_links in Hp; by rewrite He in Hp].
  destruct (parse_links_facets t b He) as (fs' & Hfs' & Hsp & Hall).
  assert (fs' = fs) by congruence. subst fs'.
  split; [|split; [|split; [|split]]].
  - exists b. split; [done|]. split; [done|].
    eapply Forall_impl; [exact Hall|]. by intros f (_ & H & _).
  - eapply Forall_impl; [exact Hall|]. by intros f (_ & _ & _ & H).
  - vm_compute. reflexivity.
  - vm_compute. reflexivity.
  - vm_compute. repeat split; lia.
Qed.

Lemma facet_byte_offsets_witness :
  exists i j, facet_covers (str "see http://a.co here")
                (Facet 4 15 (str "http://a.co")) i j.
Proof.
  destruct (facet_byte_offsets (str "see http://a.co here")
              [Facet 4 15 (str "http://a.co")] ltac:(vm_compute; reflexivity))
    as (_ & H & _).
  by inversion H.
Defined.

(** C10, as worded, fails on a string with a lone surrogate:
    [text.encode('UTF-8')] raises. *)
Lemma parse_links_raises_on_surrogate :
  is_codepoint 55296 /\ parse_links [55296] = None
  /\ parse_links (str "http://a.co/" ++ [55296]) = None.
Proof. vm_compute. repeat split. Qed.

(** C10 (amended).  On every string that UTF-8 can encode (no lone
    surrogate) [parse_links] raises nothing.  Every match over the encoded
    bytes begins and ends on a character boundary, so that the matched
    bytes decode; every facet satisfies
    [0 <= byteStart < byteEnd <= length of the encoded text]; the facets
    come in increasing byte order and do not overlap. *)
Theorem parse_links_total (t : list N) :
  encodable t ->
  exists b fs,
    encode t = Some b /\ parse_links t = Some fs
    /\ Forall (fun f =>
         (0 <= byteStart f)%nat /\ (byteStart f < byteEnd f <= length b)%nat
         /\ decode (slice (byteStart f) (byteEnd f) b) = Some (uri f)
         /\ exists i j, facet_covers t f i j) fs
    /\ StronglySorted (fun f g => (byteEnd f <= byteStart g)%nat) fs.
Proof.
  intros Ht. apply encodable_encode in Ht as [b He].
  destruct (parse_links_facets t b He) as (fs & Hfs & Hsp & Hall).
  exists b, fs. split; [done|]. split; [done|]. split.
  - eapply Forall_impl; [exact Hall|].
    intros f (H1 & _ & H3 & H4). split; [lia|]. split; [lia|done].
  - pose proof (finditer_from_sorted link_pattern 0 0 b) as Hs.
    unfold finditer in Hsp. rewrite <- Hsp in Hs. clear -Hs.
    induction fs as [|f fs IH]; [constructor|].
    simpl in Hs. apply StronglySorted_inv in Hs as [Hs Hf].
    constructor; [by apply IH|].
    rewrite Forall_fmap in Hf. exact Hf.
Qed.

Lemma parse_links_total_witness :
  exists b fs, encode ([233; 8364] ++ str " http://a.co") = Some b
               /\ parse_links ([233; 8364] ++ str " http://a.co") = Some fs.
Proof.
  destruct (parse_links_total ([233; 8364] ++ str " http://a.co"))
    as (b & fs & He & Hp & _).
  - apply encodable_encode. vm_compute. by eexists.
  - exists b, fs. by split.
Defined.

(** ** The normaliser: fixed points *)

Lemma drop_while_split (p : N -> bool) (s : list N) :
  exists a, s = a ++ drop_while p s /\ Forall (fun c => p c = true) a.
Proof.
  induction s as [|c r (a & Ha & Hall)]; simpl.
  - exists []. by split.
  - destruct (p c) eqn:E.
    + exists (c :: a). split; [by rewrite Ha at 1|]. by constructor.
    + exists []. by split.
Qed.

Lemma drop_while_head (p : N -> bool) (s : list N) (c : N) :
  head (drop_while p s) = Some c -> p c = false.
Proof.
  induction s as [|d r IH]; simpl; [done|].
  destruct (p d) eqn:E; [done|]. simpl. by intros [= <-].
Qed.

Lemma drop_while_id (p : N -> bool) (s : list N) :
  (forall c, head s = Some c -> p c = false) -> drop_while p s = s.
Proof. destruct s as [|c r]; simpl; [done|]. intros H. by rewrite (H c). Qed.

Lemma drop_while_app (p : N -> bool) (a b : list N) :
  drop_while p (a ++ b)
  = match drop_while p a with [] => drop_while p b | l => l ++ b end.
Proof.
  induction a as [|c a IH]; simpl; [by destruct (drop_while p b)|].
  destruct (p c); [done|done].
Qed.

(** [rstrip], from the left. *)
Lemma rstrip_cons (c : N) (r : list N) :
  rstrip (c :: r)
  = match rstrip r with
    | [] => if isspace c then [] else [c]
    | l => c :: l
    end.
Proof.
  unfold rstrip. simpl. rewrite drop_while_app.
  destruct (drop_while isspace (rev r)) as [|d l] eqn:E; simpl.
  - by destruct (isspace c).
  - rewrite rev_app_distr. simpl.
    destruct (rev l ++ [d]) eqn:E'; [by destruct (rev l)|done].
Qed.

Lemma rstrip_split (s : list N) :
  exists a, s = rstrip s ++ a /\ Forall (fun c => isspace c = true) a.
Proof.
  unfold rstrip. destruct (drop_while_split isspace (rev s)) as (a & Ha & Hall).
  exists (rev a). split.
  - rewrite <- rev_app_distr, <- Ha. by rewrite rev_involutive.
  - apply Forall_forall. intros x Hx. rewrite Forall_forall in Hall.
    apply Hall. apply list_elem_of_In. apply in_rev, list_elem_of_In. done.
Qed.

Lemma rstrip_last (s : list N) (c : N) :
  last (rstrip s) = Some c -> isspace c = false.
Proof.
  unfold rstrip. intros H. apply (drop_while_head isspace (rev s)).
  rewrite <- H. destruct (drop_while isspace (rev s)) as [|d l]; [done|].
  simpl. by rewrite last_snoc.
Qed.

Lemma rstrip_id (s : list N) :
  (forall c, last s = Some c -> isspace c = false) -> rstrip s = s.
Proof.
  intros H. unfold rstrip. rewrite drop_while_id; [apply rev_involutive|].
  intros c Hc. apply H. destruct (rev s) as [|d l] eqn:E; [done|].
  simpl in Hc. inversion Hc; subst d.
  rewrite <- (rev_involutive s), E. simpl. by rewrite last_snoc.
Qed.

Lemma rstrip_head (s : list N) (c : N) :
  head s = Some c -> isspace c = false -> head (rstrip s) = Some c.
Proof.
  destruct s as [|d r]; [done|]. simpl. intros [= ->] Hc.
  rewrite rstrip_cons, Hc. by destruct (rstrip r).
Qed.

Lemma strip_split (s : list N) :
  exists a b, s = a ++ strip s ++ b
              /\ Forall (fun c => isspace c = true) a
              /\ Forall (fun c => isspace c = true) b.
Proof.
  unfold strip, lstrip.
  destruct (drop_while_split isspace s) as (a & Ha & Hall).
  destruct (rstrip_split (drop_while isspace s)) as (b & Hb & Hbll).
  exists a, b. split; [|done]. rewrite <- Hb. exact Ha.
Qed.

(** What [strip] returns neither begins nor ends with a whitespace. *)
Lemma strip_ends (s : list N) :
  (forall c, head (strip s) = Some c -> isspace c = false)
  /\ (forall c, last (strip s) = Some c -> isspace c = false).
Proof.
  split; [|apply rstrip_last].
  unfold strip, lstrip. intros c Hc.
  destruct (drop_while isspace s) as [|d r] eqn:E; [done|].
  assert (Hd : isspace d = false)
    by (apply (drop_while_head isspace s); by rewrite E).
  rewrite (rstrip_head (d :: r) d eq_refl Hd) in Hc. by inversion Hc; subst.
Qed.

Lemma strip_id (s : list N) :
  (forall c, head s = Some c -> isspace c = false) ->
  (forall c, last s = Some c -> isspace c = false) ->
  strip s = s.
Proof.
  intros Hh Hl. unfold strip, lstrip.
  rewrite drop_while_id by done. by apply rstrip_id.
Qed.

(** [s.strip().strip() == s.strip()] *)
Lemma strip_strip (s : list N) : strip (strip s) = strip s.
Proof. destruct (strip_ends s). by apply strip_id. Qed.

(** *** Collapsed whitespace *)

Lemma single_spaced_weaken (b : bool) (s : list N) :
  single_spaced b s -> single_spaced false s.
Proof.
  destruct s as [|c r]; simpl; [done|].
  destruct (isspace c); [|done]. by intros (? & _ & ?).
Qed.

Lemma single_spaced_app (b : bool) (a s : list N) :
  single_spaced b (a ++ s) -> single_spaced b a /\ single_spaced false s.
Proof.
  revert b. induction a as [|c a IH]; intros b; simpl.
  - intros H. split; [done|]. by eapply single_spaced_weaken.
  - destruct (isspace c).
    + intros (? & ? & H). destruct (IH _ H). done.
    + intros H. by destruct (IH _ H).
Qed.

Lemma single_spaced_strip (s : list N) :
  single_spaced false s -> single_spaced false (strip s).
Proof.
  destruct (strip_split s) as (a & b & Hs & _). intros H.
  rewrite Hs in H. apply single_spaced_app in H as [_ H].
  by apply single_spaced_app in H as [H _].
Qed.

(** [re.sub(r'\s+', ' ', s)] leaves single spaces. *)
Lemma collapse_single_spaced (s : list N) (skip : nat) (b : bool) :
  (skip <= run_length isspace s)%nat ->
  (b = true -> skip = run_length isspace s) ->
  single_spaced b (re_sub_from ws_plus [SP] skip s).
Proof.
  revert skip b. induction s as [|c r IH]; intros skip b Hskip Hb; simpl; [done|].
  simpl in Hskip, Hb. destruct skip as [|k].
  - unfold ws_plus. simpl. destruct (isspace c) eqn:Ec.
    + destruct b; [by specialize (Hb eq_refl)|].
      simpl. repeat split. by apply IH.
    + simpl. rewrite Ec. apply IH; [lia|done].
  - destruct (isspace c) eqn:Ec; [|lia].
    apply IH; [lia|]. intros Hbt. specialize (Hb Hbt). lia.
Qed.

(** ... and changes nothing where there are only single spaces. *)
Lemma single_spaced_fixed (b : bool) (s : list N) :
  single_spaced b s -> re_sub_from ws_plus [SP] 0 s = s.
Proof.
  revert b. induction s as [|c r IH]; intros b; simpl; [done|].
  unfold ws_plus. simpl. destruct (isspace c) eqn:Ec.
  - intros (-> & _ & H).
    assert (run_length isspace r = 0%nat) as ->.
    { destruct r as [|d r']; simpl in *; [done|].
      destruct (isspace d); [by destruct H as (_ & ? & _)|done]. }
    simpl. f_equal. exact (IH _ H).
  - intros H. f_equal. exact (IH _ H).
Qed.

(** *** Line endings *)

Lemma re_sub_from_Forall (Q : N -> Prop) (m : list N -> option nat)
    (repl : list N) (skip : nat) (s : list N) :
  Forall Q repl -> Forall Q s -> Forall Q (re_sub_from m repl skip s).
Proof.
  intros Hr. revert skip. induction s as [|c r IH]; intros skip Hs; simpl.
  { constructor. }
  apply Forall_cons in Hs as [Hc Hs].
  destruct skip as [|k]; [|by apply IH].
  destruct (m (c :: r)) as [[|n]|].
  - constructor; [done|by apply IH].
  - apply Forall_app. split; [done|by apply IH].
  - constructor; [done|by apply IH].
Qed.

(** A literal that begins with a character that [s] does not hold is not
    replaced. *)
Lemma replace_absent (h : N) (old new s : list N) :
  Forall (fun c => c <> h) s -> replace (h :: old) new s = s.
Proof.
  unfold replace, re_sub. induction s as [|c r IH]; simpl; [done|].
  intros Hs. apply Forall_cons in Hs as [Hc Hs].
  unfold match_literal. simpl.
  destruct (N.eqb_spec h c) as [->|_]; [done|]. f_equal. exact (IH Hs).
Qed.

(** [s.replace('\r', '\n')] leaves no [\r]. *)
Lemma replace_cr (s : list N) :
  Forall (fun c => c <> CR) (replace [CR] [LF] s).
Proof.
  unfold replace, re_sub. induction s as [|c r IH]; [constructor|].
  cbn [re_sub_from]. unfold match_literal at 1. cbn [strip_prefix length].
  destruct (N.eqb_spec CR c) as [<-|Hne].
  - cbn [app]. constructor; [done|exact IH].
  - constructor; [by intros ->|exact IH].
Qed.

Lemma lf_lines_no_cr (s : list N) : lf_lines s -> Forall (fun c => c <> CR) s.
Proof.
  intros Hs. eapply Forall_impl; [exact Hs|].
  intros c H ->. by specialize (H eq_refl).
Qed.

(** After the line endings are normalised the only line boundary is [\n]. *)
Lemma normalised_endings (s : list N) :
  plain_lines s ->
  lf_lines (replace [CR] [LF] (replace [CR; LF] [LF] s)).
Proof.
  intros Hs.
  assert (Hp : plain_lines (replace [CR] [LF] (replace [CR; LF] [LF] s))).
  { unfold replace, re_sub.
    apply re_sub_from_Forall; [by repeat constructor; left|].
    apply re_sub_from_Forall; [by repeat constructor; left|done]. }
  pose proof (replace_cr (replace [CR; LF] [LF] s)) as Hcr.
  unfold lf_lines, plain_lines in *.
  rewrite Forall_forall in Hp, Hcr. apply Forall_forall. intros c Hc Hl.
  destruct (Hp c Hc Hl) as [-> | ->]; [done|]. by destruct (Hcr CR Hc).
Qed.

Lemma normalised_endings_fixed (s : list N) :
  lf_lines s -> replace [CR] [LF] (replace [CR; LF] [LF] s) = s.
Proof.
  intros H. apply lf_lines_no_cr in H.
  rewrite (replace_absent CR [LF] [LF] s H).
  exact (replace_absent CR [] [LF] s H).
Qed.

(** *** Blank lines *)

Lemma last_newline_spec (m : nat) (s : list N) (n : nat) :
  last_newline m s = Some n ->
  (1 <= n <= m)%nat /\ s !! (n - 1)%nat = Some LF
  /\ last_newline (m - n) (drop n s) = None.
Proof.
  revert s n. induction m as [|m IH]; intros [|c r] n; simpl; try done.
  destruct (last_newline m r) as [k|] eqn:E.
  - intros [= <-]. destruct (IH r k E) as ((H1 & H2) & H3 & H4).
    split; [lia|]. split; [|done].
    replace (S k - 1)%nat with (S (k - 1)) by lia. done.
  - destruct (N.eqb_spec c 10) as [->|]; [|done]. intros [= <-].
    split; [lia|]. split; [done|]. simpl. by rewrite Nat.sub_0_r.
Qed.

Lemma run_length_drop (p : N -> bool) (n : nat) (s : list N) :
  (n <= run_length p s)%nat ->
  run_length p (drop n s) = (run_length p s - n)%nat.
Proof.
  revert s. induction n as [|n IH]; intros s; [by rewrite Nat.sub_0_r|].
  destruct s as [|c r]; simpl; [lia|].
  destruct (p c); simpl; [|lia]. intros H. apply IH. lia.
Qed.

(** What follows the last newline of a whitespace run holds no newline. *)
Lemma newline_free_after (s : list N) (n : nat) :
  last_newline (run_length isspace s) s = Some n ->
  (1 <= n)%nat /\ newline_free_run (drop n s).
Proof.
  intros H. apply last_newline_spec in H as ((H1 & H2) & _ & H3).
  split; [done|]. unfold newline_free_run. by rewrite run_length_drop.
Qed.

Lemma newline_free_cons (c : N) (r : list N) :
  newline_free_run (c :: r) ->
  c <> LF /\ (isspace c = true -> newline_free_run r).
Proof.
  unfold newline_free_run. simpl.
  destruct (isspace c) eqn:Ec; simpl.
  - destruct (last_newline (run_length isspace r) r); [done|].
    destruct (N.eqb_spec c 10) as [->|Hne]; [done|]. by split.
  - intros _. split; [|done]. by intros ->.
Qed.

(** [re.sub(r'\n\s*\n', '\n\n', s)] leaves at most two newlines in a
    whitespace run. *)
Lemma sub_two_newlines (s : list N) (skip k : nat) :
  (skip = 0%nat -> k = 0%nat \/ ((k <= 2)%nat /\ newline_free_run s)) ->
  ((0 < skip)%nat -> (k <= 2)%nat /\ newline_free_run (drop skip s)) ->
  two_newlines k (re_sub_from blank_lines [LF; LF] skip s).
Proof.
  revert skip k. induction s as [|c r IH]; intros skip k H0 Hpos; [done|].
  destruct skip as [|j].
  - clear Hpos. specialize (H0 eq_refl).
    cbn [re_sub_from blank_lines].
    destruct (N.eqb_spec c 10) as [->|Hc].
    + assert (k = 0%nat) as ->.
      { destruct H0 as [?|[_ H]]; [done|].
        by apply newline_free_cons in H as [? _]. }
      destruct (last_newline (run_length isspace r) r) as [n|] eqn:En.
      * apply newline_free_after in En as [Hn Hfree].
        simpl. split; [lia|]. split; [lia|].
        apply IH; [lia|]. by intros _.
      * simpl. split; [lia|]. apply IH; [|lia]. intros _. right.
        split; [lia|exact En].
    + cbn [two_newlines]. destruct (N.eqb_spec c LF) as [->|_]; [done|].
      destruct (isspace c) eqn:Ec.
      * apply IH; [|lia]. intros _. destruct H0 as [->|[Hk H]]; [by left|].
        right. split; [done|]. apply newline_free_cons in H as [_ H'].
        by apply H'.
      * apply IH; [by left|lia].
  - cbn [re_sub_from]. destruct (Hpos ltac:(lia)) as [Hk Hf]. simpl in Hf.
    apply IH.
    + intros ->. right. by split.
    + intros _. by split.
Qed.

(** *** Lines *)

Lemma ws_removed_refl (s : list N) : ws_removed s s.
Proof. induction s; by constructor. Qed.

Lemma ws_removed_all (a : list N) :
  Forall (fun c => isspace c = true) a -> ws_removed [] a.
Proof. induction 1; by constructor. Qed.

Lemma ws_removed_app (a' a b' b : list N) :
  ws_removed a' a -> ws_removed b' b -> ws_removed (a' ++ b') (a ++ b).
Proof.
  induction 1 as [|c a' a H IH|c a' a Hc H IH]; intros Hb; simpl.
  - done.
  - constructor. by apply IH.
  - constructor; [done|]. by apply IH.
Qed.

Lemma ws_removed_Forall (Q : N -> Prop) (s' s : list N) :
  ws_removed s' s -> Forall Q s -> Forall Q s'.
Proof.
  induction 1; intros Hs; [done| |].
  - apply Forall_cons in Hs as [? ?]. constructor; auto.
  - apply Forall_cons in Hs as [? ?]. auto.
Qed.

Lemma ws_removed_rstrip (s : list N) : ws_removed (rstrip s) s.
Proof.
  destruct (rstrip_split s) as (a & Ha & Hall). rewrite Ha at 2.
  rewrite <- (app_nil_r (rstrip s)) at 1.
  apply ws_removed_app; [apply ws_removed_refl|by apply ws_removed_all].
Qed.

Lemma ws_removed_strip (s : list N) : ws_removed (strip s) s.
Proof.
  destruct (strip_split s) as (a & b & Hs & Ha & Hb). rewrite Hs at 2.
  change (strip s) with ([] ++ strip s) at 1.
  apply ws_removed_app; [by apply ws_removed_all|].
  rewrite <- (app_nil_r (strip s)) at 1.
  apply ws_removed_app; [apply ws_removed_refl|by apply ws_removed_all].
Qed.

Lemma two_newlines_mono (k k' : nat) (s : list N) :
  (k' <= k)%nat -> two_newlines k s -> two_newlines k' s.
Proof.
  revert k k'. induction s as [|c r IH]; intros k k' Hk; simpl; [done|].
  destruct (c =? LF).
  - intros [? H]. split; [lia|]. apply (IH (S k)); [lia|done].
  - destruct (isspace c); [by apply IH|done].
Qed.

Lemma two_newlines_tail (k : nat) (c : N) (r : list N) :
  two_newlines k (c :: r) -> two_newlines 0 r.
Proof.
  simpl. destruct (c =? LF).
  - intros [_ H]. apply (two_newlines_mono (S k)); [lia|done].
  - destruct (isspace c); [|done]. apply two_newlines_mono. lia.
Qed.

(** Taking whitespace away adds no newline to a run. *)
Lemma ws_removed_two_newlines (s' s : list N) (k : nat) :
  ws_removed s' s -> two_newlines k s -> two_newlines k s'.
Proof.
  intros H. revert k. induction H as [|c s' s H IH|c s' s Hc H IH]; intros k.
  - done.
  - simpl. destruct (c =? LF).
    + intros [? ?]. split; [done|by apply IH].
    + destruct (isspace c); apply IH.
  - simpl. rewrite Hc. destruct (c =? LF).
    + intros [_ H']. apply IH. apply (two_newlines_mono (S k)); [lia|done].
    + apply IH.
Qed.

Lemma splitlines_from_cons (cur : list N) (c : N) (r : list N) :
  splitlines_from cur (c :: r) <> [].
Proof.
  revert cur c. induction r as [|d r IH]; intros cur c; simpl.
  - destruct (islinebreak c); [done|]. by destruct cur.
  - destruct (islinebreak c); [by destruct ((c =? 13) && (d =? 10))|].
    apply IH.
Qed.

Lemma lines_from_nil (cur : list N) : lines_from cur [] = rstrip cur.
Proof. by destruct cur. Qed.

Lemma lines_from_lf (cur r : list N) :
  lines_from cur (LF :: r)
  = match r with
    | [] => rstrip cur
    | _ => rstrip cur ++ LF :: lines_from [] r
    end.
Proof.
  unfold lines_from. destruct r as [|d r]; [done|].
  change (splitlines_from cur (LF :: d :: r))
    with (cur :: splitlines_from [] (d :: r)).
  pose proof (splitlines_from_cons [] d r) as Hne.
  destruct (splitlines_from [] (d :: r)) as [|l ls]; [done|]. done.
Qed.

Lemma lines_from_char (cur : list N) (c : N) (r : list N) :
  islinebreak c = false -> lines_from cur (c :: r) = lines_from (cur ++ [c]) r.
Proof. intros H. unfold lines_from. simpl. by rewrite H. Qed.

Lemma lines_from_ws_removed (s cur : list N) :
  lf_lines s -> ws_removed (lines_from cur s) (cur ++ s).
Proof.
  revert cur. induction s as [|c r IH]; intros cur Hs.
  - rewrite lines_from_nil, app_nil_r. apply ws_removed_rstrip.
  - apply Forall_cons in Hs as [Hc Hr].
    destruct (islinebreak c) eqn:Ec.
    + rewrite (Hc eq_refl), lines_from_lf. destruct r as [|d r'].
      * rewrite <- (app_nil_r (rstrip cur)).
        apply ws_removed_app; [apply ws_removed_rstrip|].
        by repeat constructor.
      * apply ws_removed_app; [apply ws_removed_rstrip|].
        constructor. exact (IH [] Hr).
    + rewrite lines_from_char by done.
      replace (cur ++ c :: r) with ((cur ++ [c]) ++ r) by by rewrite <- app_assoc.
      by apply IH.
Qed.

Lemma tidy_no_lf (s : list N) : Forall (fun c => c <> LF) s -> tidy_lines s.
Proof.
  induction 1 as [|a r Ha Hr IH]; simpl; [done|].
  destruct r as [|b r']; [done|]. split; [|done].
  apply Forall_cons in Hr as [Hb _]. by intros ->.
Qed.

Lemma tidy_app_intro (a : list N) (b : N) (x : list N) :
  tidy_lines a -> tidy_lines (b :: x) ->
  (forall c, last a = Some c -> b = LF -> isspace c = true -> c = LF) ->
  tidy_lines (a ++ b :: x).
Proof.
  induction a as [|a0 a IH]; intros Ha Hb Hl; [done|].
  destruct a as [|a1 a'].
  - simpl. split; [by apply Hl|done].
  - destruct Ha as [H01 Ha]. split; [done|]. by apply IH.
Qed.

Lemma tidy_app_elim (a s : list N) :
  tidy_lines (a ++ s) ->
  tidy_lines a /\ tidy_lines s
  /\ (forall c b, last a = Some c -> head s = Some b ->
        b = LF -> isspace c = true -> c = LF).
Proof.
  induction a as [|a0 a IH]; intros H.
  - split; [done|]. split; [done|]. done.
  - destruct a as [|a1 a'].
    + destruct s as [|b x]; [by repeat split|].
      destruct H as [H0 H]. split; [done|]. split; [done|].
      intros c b' [= <-] [= <-]. done.
    + destruct H as [H01 H]. destruct (IH H) as (Ha & Hs & Hl).
      split; [by split|]. split; [done|]. done.
Qed.

Lemma lines_from_tidy (s cur : list N) :
  lf_lines s -> Forall (fun c => c <> LF) cur -> tidy_lines (lines_from cur s).
Proof.
  revert cur. induction s as [|c r IH]; intros cur Hs Hcur.
  - rewrite lines_from_nil. apply tidy_no_lf.
    eapply ws_removed_Forall; [apply ws_removed_rstrip|done].
  - apply Forall_cons in Hs as [Hc Hr].
    destruct (islinebreak c) eqn:Ec.
    + rewrite (Hc eq_refl), lines_from_lf.
      assert (Ht : tidy_lines (rstrip cur)).
      { apply tidy_no_lf.
        eapply ws_removed_Forall; [apply ws_removed_rstrip|done]. }
      destruct r as [|d r']; [done|].
      apply tidy_app_intro; [done| |].
      * specialize (IH [] Hr ltac:(constructor)).
        destruct (lines_from [] (d :: r')); [done|]. by split.
      * intros c' Hl _ Hsp. apply rstrip_last in Hl. congruence.
    + rewrite lines_from_char by done. apply IH; [done|].
      apply Forall_app. split; [done|]. constructor; [|done].
      intros ->. done.
Qed.

(** Lines that are tidy already stay as they are. *)
Lemma lines_from_fixed (s cur : list N) :
  lf_lines s -> Forall (fun c => c <> LF) cur ->
  tidy_lines (cur ++ s) ->
  (forall c, last (cur ++ s) = Some c -> isspace c = false) ->
  lines_from cur s = cur ++ s.
Proof.
  revert cur. induction s as [|c r IH]; intros cur Hs Hcur Ht Hl.
  - rewrite lines_from_nil, app_nil_r in *. by apply rstrip_id.
  - apply Forall_cons in Hs as [Hc Hr].
    destruct (islinebreak c) eqn:Ec.
    + specialize (Hc eq_refl). subst c. rewrite lines_from_lf.
      destruct r as [|d r'].
      * specialize (Hl LF). rewrite last_snoc in Hl. by specialize (Hl eq_refl).
      * apply tidy_app_elim in Ht as (_ & Ht & Hb).
        assert (rstrip cur = cur) as ->.
        { apply rstrip_id. intros c Hlast.
          destruct (isspace c) eqn:Esp; [|done].
          specialize (Hb c LF Hlast eq_refl eq_refl Esp). subst c.
          apply last_Some_elem_of in Hlast.
          rewrite Forall_forall in Hcur. by destruct (Hcur LF Hlast). }
        f_equal. f_equal.
        apply (IH [] Hr ltac:(constructor)).
        -- by destruct Ht.
        -- intros c Hlast. apply Hl.
           rewrite last_app. simpl in Hlast |- *. by rewrite Hlast.
    + rewrite lines_from_char by done.
      replace (cur ++ c :: r) with ((cur ++ [c]) ++ r) in *
        by by rewrite <- app_assoc.
      apply IH; try done.
      apply Forall_app. split; [done|]. constructor; [|done]. by intros ->.
Qed.

(** In tidy lines the newlines of a whitespace run stand together. *)
Lemma newline_run (n : nat) (r : list N) :
  tidy_lines r -> (n <= run_length isspace r)%nat ->
  r !! (n - 1)%nat = Some LF -> (1 <= n)%nat ->
  take n r = replicate n LF.
Proof.
  revert r. induction n as [|n IH]; intros r Ht Hrun Hlf Hn; [lia|].
  destruct r as [|a r1]; [done|].
  destruct n as [|m].
  - simpl in Hlf. by inversion Hlf.
  - simpl in Hrun. destruct (isspace a) eqn:Ea; [|lia].
    replace (S (S m) - 1)%nat with (S m) in Hlf by lia. simpl in Hlf.
    destruct r1 as [|b r2]; [done|]. destruct Ht as [Hab Ht].
    assert (Hr1 : take (S m) (b :: r2) = replicate (S m) LF).
    { apply IH; [done|lia| |lia].
      by replace (S m - 1)%nat with m by lia. }
    cbn [take replicate] in Hr1 |- *. inversion Hr1 as [[Hb Hrest]].
    rewrite Hrest. f_equal. apply Hab; [done|done].
Qed.

Lemma two_newlines_replicate (k n : nat) (rest : list N) :
  (1 <= n)%nat -> two_newlines k (replicate n LF ++ rest) -> (k + n <= 2)%nat.
Proof.
  revert k. induction n as [|n IH]; intros k Hn; [lia|].
  simpl. intros [Hk H]. destruct n as [|n']; [lia|].
  specialize (IH (S k) ltac:(lia) H). lia.
Qed.

(** [re.sub(r'\n\s*\n', '\n\n', s)] changes nothing in tidy lines with at
    most two newlines in a row. *)
Lemma sub_fixed (s : list N) (skip : nat) :
  two_newlines 0 s -> tidy_lines s ->
  re_sub_from blank_lines [LF; LF] skip s = drop skip s.
Proof.
  revert skip. induction s as [|c r IH]; intros skip Hw Ht.
  { by destruct skip. }
  assert (Hwr : two_newlines 0 r) by by eapply two_newlines_tail.
  assert (Htr : tidy_lines r) by (destruct r; [done|by destruct Ht]).
  destruct skip as [|j]; [|by apply IH].
  cbn [re_sub_from blank_lines drop].
  destruct (N.eqb_spec c 10) as [->|Hc]; [|f_equal; by apply IH].
  destruct (last_newline (run_length isspace r) r) as [n|] eqn:En;
    [|f_equal; by apply IH].
  apply last_newline_spec in En as ((Hn1 & Hn2) & Hlf & _).
  pose proof (newline_run n r Htr Hn2 Hlf Hn1) as Hrun.
  destruct Hw as [_ Hw1].
  rewrite <- (take_drop n r), Hrun in Hw1.
  apply two_newlines_replicate in Hw1; [|done].
  assert (n = 1%nat) by lia. subst n.
  rewrite IH by done. cbn [app]. f_equal.
  rewrite <- (take_drop 1 r) at 2. by rewrite Hrun.
Qed.

(** *** The two branches *)

Lemma clean_urls_plain (urls : list (list N)) (s : list N) :
  plain_lines s -> plain_lines (clean_urls urls s).
Proof.
  unfold clean_urls. revert s.
  induction urls as [|u urls IH]; intros s Hs; simpl; [done|].
  apply IH. eapply ws_removed_Forall; [apply ws_removed_strip|].
  apply re_sub_from_Forall; [constructor|done].
Qed.

(** What the line-break preserving branch returns is a fixed point of
    it. *)
Lemma farcaster_lines_fixed (x : list N) :
  plain_lines x ->
  strip (farcaster_lines (strip (farcaster_lines x)))
  = strip (farcaster_lines x).
Proof.
  intros Hx.
  set (y := replace [CR] [LF] (replace [CR; LF] [LF] x)).
  set (z := re_sub blank_lines [LF; LF] y).
  set (c := strip (lines_from [] z)).
  assert (Hy : lf_lines y) by by apply normalised_endings.
  assert (Hz : lf_lines z).
  { apply re_sub_from_Forall; [by repeat constructor|done]. }
  assert (Hzw : two_newlines 0 z) by (apply sub_two_newlines; [by left|lia]).
  pose proof (lines_from_ws_removed z [] Hz) as Hrem. simpl in Hrem.
  pose proof (ws_removed_strip (lines_from [] z)) as Hrem'. fold c in Hrem'.
  assert (Hc : lf_lines c).
  { eapply ws_removed_Forall; [exact Hrem'|].
    eapply ws_removed_Forall; [exact Hrem|done]. }
  assert (Hcw : two_newlines 0 c).
  { eapply ws_removed_two_newlines; [exact Hrem'|].
    eapply ws_removed_two_newlines; [exact Hrem|done]. }
  assert (Hct : tidy_lines c).
  { pose proof (lines_from_tidy z [] Hz ltac:(constructor)) as Ht.
    destruct (strip_split (lines_from [] z)) as (a & b & Hs & _).
    fold c in Hs. rewrite Hs in Ht.
    apply tidy_app_elim in Ht as (_ & Ht & _).
    by apply tidy_app_elim in Ht as (Ht & _). }
  destruct (strip_ends (lines_from [] z)) as [Hhead Hlast].
  fold c in Hhead, Hlast.
  change (strip (farcaster_lines c) = c).
  assert (Hfix : farcaster_lines c = c).
  { unfold farcaster_lines.
    rewrite (normalised_endings_fixed c Hc).
    unfold re_sub. rewrite (sub_fixed c 0 Hcw Hct), drop_0.
    exact (lines_from_fixed c [] Hc ltac:(constructor) Hct Hlast). }
  rewrite Hfix. by apply strip_id.
Qed.

(** What the whitespace-collapsing branch returns is a fixed point of it. *)
Lemma collapse_fixed (x : list N) :
  strip (re_sub ws_plus [SP] (strip (re_sub ws_plus [SP] x)))
  = strip (re_sub ws_plus [SP] x).
Proof.
  assert (H : single_spaced false (strip (re_sub ws_plus [SP] x))).
  { apply single_spaced_strip. apply collapse_single_spaced; [lia|done]. }
  unfold re_sub at 1. rewrite (single_spaced_fixed false _ H).
  apply strip_strip.
Qed.

(** C8, as worded, fails in both modes.  A URL that the first pass leaves
    behind is removed by the second; and in the line-break preserving mode
    [splitlines] also breaks lines at form feeds (and other boundaries),
    which the first pass turns into newlines and the second then
    collapses. *)
Lemma normaliser_not_idempotent :
  (extract_and_clean_text (str "www.a http://www.ax") false
   = Some (str "http://x", [str "www.a"; str "http://www.ax"])
   /\ extract_and_clean_text (str "http://x") false = Some ([], [str "http://x"]))
  /\ (extract_and_clean_text (str "www.a http://www.ax") true
      = Some (str "http://x", [str "www.a"; str "http://www.ax"])
      /\ extract_and_clean_text (str "http://x") true = Some ([], [str "http://x"]))
  /\ (extract_and_clean_text [97; 12; 12; 12; 98] true
      = Some ([97; 10; 10; 10; 98], [])
      /\ extract_and_clean_text [97; 10; 10; 10; 98] true
         = Some ([97; 10; 10; 98], [])).
Proof. vm_compute. repeat split. Qed.

(** C8 (amended).  For every input text and either mode, when the cleaned
    text holds no match of the URL pattern and, in the line-break
    preserving mode, the input holds no line boundary other than [\n] and
    [\r], a second pass returns the cleaned text unchanged and retains no
    URL. *)
Theorem normaliser_fixed_point (t : list N) (for_farcaster : bool)
    (cleaned : list N) (urls : list (list N)) :
  extract_and_clean_text t for_farcaster = Some (cleaned, urls) ->
  findall url_pattern cleaned = [] ->
  (for_farcaster = true -> plain_lines t) ->
  extract_and_clean_text cleaned for_farcaster = Some (cleaned, []).
Proof.
  unfold extract_and_clean_text at 1.
  destruct (short_urls (findall url_pattern t)) as [short|]; [|done].
  intros [= <- _] Hnone Hplain.
  unfold extract_and_clean_text. rewrite Hnone. simpl.
  f_equal. f_equal. unfold clean_urls at 1. simpl.
  destruct for_farcaster.
  - apply farcaster_lines_fixed. apply clean_urls_plain. by apply Hplain.
  - apply collapse_fixed.
Qed.

Lemma normaliser_fixed_point_witness :
  extract_and_clean_text (str "Hello big world") false
  = Some (str "Hello big world", [])
  /\ extract_and_clean_text [97; 10; 10; 98; 10; 99] true
     = Some ([97; 10; 10; 98; 10; 99], []).
Proof.
  split.
  - apply (normaliser_fixed_point
             (str "Hello  https://x.co/a   big world   www.z.y") false
             (str "Hello big world")
             [str "https://x.co/a"; str "www.z.y"]).
    + vm_compute. reflexivity.
    + vm_compute. reflexivity.
    + discriminate.
  - apply (normaliser_fixed_point
             [32; 97; 32; 13; 10; 32; 13; 10; 10; 98; 32; 10; 99; 10] true
             [97; 10; 10; 98; 10; 99] []).
    + vm_compute. reflexivity.
    + vm_compute. reflexivity.
    + intros _. unfold plain_lines.
      repeat (apply List.Forall_cons;
              [vm_compute; first [discriminate | by left | by right]|]).
      apply List.Forall_nil.
Defined.

(** ** The second of two texts *)

Section SecondText.

Variable w : nat -> world.
Variable send_raises : Z -> string -> option exn.

Lemma run_task_quiet (i : nat) (st : state) :
  quiet st -> quiet (run_task w send_raises i st).
Proof.
  intros [Hp Hq]. unfold run_task.
  destruct (tasks st !! i) as [t|]; [|done].
  destruct (t_state t) as [|wake|c]; [| |done].
  - destruct (t_cancel_requested t); done.
  - destruct (t_cancel_requested t).
    + split; [|done]. simpl. rewrite Hp. apply delete_empty.
    + destruct (wake <=? now st)%Z; [|done].
      unfold wait_and_post_elapsed. rewrite Hp, lookup_empty. simpl.
      split; [|done]. simpl. rewrite Hp. apply delete_empty.
Qed.

Lemma loop_turn_quiet (st : state) :
  quiet st -> quiet (loop_turn w send_raises st).
Proof.
  unfold loop_turn. generalize (seq 0 (length (tasks st))).
  intros l. revert st. induction l as [|i l IH]; intros st H; simpl; [done|].
  apply IH. by apply run_task_quiet.
Qed.

Lemma ticks_quiet (ticks : list Z) (st : state) :
  quiet st -> quiet (run w send_raises (Tick <$> ticks) st).
Proof.
  unfold run. revert st.
  induction ticks as [|dt ticks IH]; intros st H; simpl; [done|].
  apply IH. apply loop_turn_quiet.
  destruct (loop_turn_quiet st H) as [Hp Hq]. by split.
Qed.

(** Whatever the two texts, the user, the platforms and the transport: when
    the second text arrives while the first timer sleeps, nothing is ever
    published for the user, however long one waits. *)
Lemma second_text_never_published (user_id : string) (chat : Z)
    (first second : list N) (dt : Z) (ticks : list Z) :
  is_Some (extract_and_clean_text first false) ->
  is_Some (extract_and_clean_text second false) ->
  (0 <= dt < 36)%Z ->
  published (run w send_raises
               ([Text user_id chat first; Tick dt; Text user_id chat second]
                ++ (Tick <$> ticks)) initial) = [].
Proof.
  intros [v1 H1] [v2 H2] Hdt. unfold run. rewrite foldl_app.
  set (entry t ts k := PendingPost t ts k chat None).
  set (st1 := State {[user_id := entry first 0%Z 0%nat]}
                    [Task user_id Created false] 0 [] []).
  set (st2 := State {[user_id := entry first 0%Z 0%nat]}
                    [Task user_id (Sleeping 36) false] dt [] []).
  set (st3 := State {[user_id := entry second dt 1%nat]}
                    [Task user_id (Sleeping 36) true;
                     Task user_id Created false] dt [] []).
  assert (E1 : step w send_raises initial (Text user_id chat first) = st1).
  { unfold step, handle_message. rewrite H1.
    cbn [pending_posts initial]. rewrite lookup_empty.
    unfold set_pending, set_tasks. cbn. by rewrite insert_empty. }
  assert (E2 : step w send_raises st1 (Tick dt) = st2).
  { unfold step. unfold loop_turn at 2. cbn [tasks st1 length seq foldl].
    unfold run_task at 1. cbn.
    unfold loop_turn. cbn [tasks length seq foldl].
    unfold run_task. cbn.
    destruct (Z.leb_spec (0 + 36) (0 + dt)) as [?|_]; [lia|reflexivity]. }
  assert (E3 : step w send_raises st2 (Text user_id chat second) = st3).
  { unfold step, handle_message. rewrite H2.
    cbn [pending_posts st2]. rewrite lookup_singleton_eq.
    unfold set_pending, set_tasks, cancel. cbn.
    by rewrite insert_singleton_eq. }
  cbn [foldl]. rewrite E1, E2, E3.
  destruct ticks as [|d ticks]; [done|].
  rewrite fmap_cons. cbn [foldl].
  apply (ticks_quiet ticks). unfold step.
  apply loop_turn_quiet.
  assert (Hq : quiet (loop_turn w send_raises st3)).
  { unfold loop_turn. cbn [tasks st3 length seq foldl].
    unfold run_task at 2. cbn. unfold run_task. cbn.
    split; [apply delete_singleton_eq|done]. }
  destruct Hq as [Hp Hq]. by split.
Qed.

End SecondText.

(** * Further properties *)

(** ** The retry executor: when it returns, how long it sleeps *)

Lemma retry_loop_returns {A} (func : nat -> result A) (rnd : nat -> Q)
    (budget attempt : nat) (last : option exn) (slept : list Q) (v : A) :
  fst (retry_loop func rnd attempt budget last slept) = Returned v
  <-> exists k, (attempt <= k < attempt + budget)%nat
               /\ func k = Returned v
               /\ forall j, (attempt <= j < k)%nat -> rate_limited (func j).
Proof.
  revert attempt last slept.
  induction budget as [|b IH]; intros attempt last slept; simpl.
  { split; [done|]. intros (k & Hk & _). lia. }
  destruct (func attempt) as [v'|e] eqn:Ef; simpl.
  - split.
    + intros [= ->]. exists attempt. split; [lia|]. split; [done|]. lia.
    + intros (k & Hk & Hv & Hrl).
      destruct (decide (k = attempt)) as [->|Hne]; [congruence|].
      destruct (Hrl attempt ltac:(lia)) as (e & He & _). congruence.
  - assert (Hhard : ~ rate_limited (func attempt) ->
      Returned v = Returned v ->
      ~ exists k, (attempt <= k < attempt + S b)%nat /\ func k = Returned v
                  /\ forall j, (attempt <= j < k)%nat -> rate_limited (func j)).
    { intros Hn _ (k & Hk & Hv & Hrl).
      destruct (decide (k = attempt)) as [->|Hne]; [congruence|].
      apply Hn, Hrl. lia. }
    destruct (exn_response e) as [[code|]|] eqn:Er; simpl.
    + destruct (Z.eqb_spec code 429) as [->|Hc]; simpl.
      * rewrite IH. split.
        -- intros (k & Hk & Hv & Hrl). exists k. split; [lia|]. split; [done|].
           intros j Hj. destruct (decide (j = attempt)) as [->|Hne].
           ++ exists e. by rewrite Ef.
           ++ apply Hrl. lia.
        -- intros (k & Hk & Hv & Hrl).
           destruct (decide (k = attempt)) as [->|Hne]; [congruence|].
           exists k. split; [lia|]. split; [done|]. intros j Hj. apply Hrl. lia.
      * split; [done|]. intros H. exfalso. apply (Hhard); [|done|exact H].
        rewrite Ef. intros (e' & [= <-] & He'). congruence.
    + split; [done|]. intros H. exfalso. apply (Hhard); [|done|exact H].
      rewrite Ef. intros (e' & [= <-] & He'). congruence.
    + split; [done|]. intros H. exfalso. apply (Hhard); [|done|exact H].
      rewrite Ef. intros (e' & [= <-] & He'). congruence.
Qed.

(** X1.  [post_with_retry] returns a value exactly when, within the budget,
    the first invocation that is not rate limited returns that value. *)
Theorem post_with_retry_returns {A} (func : nat -> result A) (rnd : nat -> Q)
    (max_retries : Z) (v : A) :
  fst (post_with_retry func rnd max_retries) = Returned v
  <-> exists k, (k < Z.to_nat max_retries)%nat
               /\ func k = Returned v
               /\ forall j, (j < k)%nat -> rate_limited (func j).
Proof.
  unfold post_with_retry. rewrite retry_loop_returns. split.
  - intros (k & Hk & Hv & Hrl). exists k. split; [lia|]. split; [done|].
    intros j Hj. apply Hrl. lia.
  - intros (k & Hk & Hv & Hrl). exists k. split; [lia|]. split; [done|].
    intros j Hj. apply Hrl. lia.
Qed.





(** An operation that leaves the state alone runs under the stateful loop
    as it does under [post_with_retry]. *)
Lemma retry_loop_st_stateless {St A} (func : nat -> result A) (rnd : nat -> Q)
    (budget attempt : nat) (last : option exn) (slept : list Q) (s : St) :
  retry_loop_st (fun k s => (func k, s)) rnd attempt budget last slept s
  = (retry_loop func rnd attempt budget last slept, s).
Proof.
  revert attempt last slept.
  induction budget as [|b IH]; intros attempt last slept; simpl; [done|].
  destruct (func attempt) as [v|e]; [done|].
  destruct (exn_response e) as [[code|]|]; try done.
  destruct (code =? 429)%Z; [|done]. apply IH.
Qed.

(** ** The Farcaster payload *)

(** X3.  Whatever the image and the retained URLs, a cast carries at most
    two embeds.  With an image, the hosted image comes first, one URL at
    most follows, and the text gets a newline at its end; when hosting the
    image fails, nothing is cast.  Without an image the embeds are the
    first two URLs and the text is the cleaned text. *)
Theorem farcaster_payload (w : world) (farcaster_text : list N)
    (urls : list (list N)) (image_data : option (list N)) (k : nat) :
  match image_data with
  | Some img =>
      match upload_to_imgur w img k with
      | Raised e => post_to_farcaster w farcaster_text urls image_data k = Raised e
      | Returned imgur_url =>
          post_to_farcaster w farcaster_text urls image_data k
          = warpcast_cast w (farcaster_text ++ [LF]) (imgur_url :: take 1 urls) k
          /\ (length (imgur_url :: take 1 urls) <= 2)%nat
      end
  | None =>
      post_to_farcaster w farcaster_text urls image_data k
      = warpcast_cast w farcaster_text (take 2 urls) k
      /\ (length (take 2 urls) <= 2)%nat
  end.
Proof.
  unfold post_to_farcaster. destruct image_data as [img|].
  - destruct (upload_to_imgur w img k) as [url|e]; [|done].
    split; [by destruct urls|]. simpl. rewrite length_take. lia.
  - split; [by destruct urls|]. rewrite length_take. lia.
Qed.

(** ** Visible characters *)

Lemma visible_app (a b : list N) : visible (a ++ b) = visible a ++ visible b.
Proof. apply List.filter_app. Qed.

Lemma visible_whitespace (a : list N) :
  Forall (fun c => isspace c = true) a -> visible a = [].
Proof. induction 1 as [|c a Hc _ IH]; simpl; [done|]. by rewrite Hc. Qed.

Lemma ws_removed_visible (s' s : list N) :
  ws_removed s' s -> visible s' = visible s.
Proof.
  induction 1 as [|c s' s _ IH|c s' s Hc _ IH]; simpl; [done| |].
  - by rewrite IH.
  - by rewrite Hc.
Qed.

Lemma visible_sublist (a b : list N) :
  sublist a b -> sublist (visible a) (visible b).
Proof.
  induction 1 as [|c a b _ IH|c a b _ IH]; simpl.
  - constructor.
  - destruct (negb (isspace c)); [by constructor|done].
  - destruct (negb (isspace c)); [by constructor|done].
Qed.

Lemma run_length_app_ge (p : N -> bool) (a r : list N) :
  Forall (fun c => p c = true) a -> (length a <= run_length p (a ++ r))%nat.
Proof.
  induction 1 as [|c a Hc _ IH]; simpl; [lia|]. rewrite Hc. lia.
Qed.

Lemma run_length_mono (p q : N -> bool) (s : list N) :
  (forall c, p c = true -> q c = true) ->
  (run_length p s <= run_length q s)%nat.
Proof.
  intros H. induction s as [|c s IH]; simpl; [lia|].
  destruct (p c) eqn:E; [|lia]. rewrite (H c E). lia.
Qed.

Lemma match_literal_whitespace (old : list N) :
  Forall (fun c => isspace c = true) old ->
  matches_whitespace (match_literal old).
Proof.
  intros Hold s n. unfold match_literal.
  destruct (strip_prefix old s) as [r|] eqn:E; [|done].
  intros [= <-]. apply strip_prefix_spec in E as ->.
  by apply run_length_app_ge.
Qed.

Lemma ws_plus_whitespace : matches_whitespace ws_plus.
Proof.
  intros s n. unfold ws_plus.
  destruct (run_length isspace s); [done|]. intros [= <-]. lia.
Qed.

Lemma blank_lines_whitespace : matches_whitespace blank_lines.
Proof.
  intros [|c r] n; simpl; [done|].
  destruct (N.eqb_spec c 10) as [->|]; [|done].
  destruct (last_newline (run_length isspace r) r) as [k|] eqn:E; [|done].
  intros [= <-]. apply last_newline_spec in E as ((_ & H) & _).
  simpl. lia.
Qed.

Lemma newlines3_whitespace : matches_whitespace newlines3.
Proof.
  intros s n. unfold newlines3.
  pose proof (run_length_mono (fun c => c =? LF) isspace s) as H.
  destruct (run_length (fun c => c =? LF) s) as [|[|[|k]]]; try done.
  intros [= <-]. apply H. intros c Hc. apply N.eqb_eq in Hc. by subst c.
Qed.

(** Replacing whitespace by whitespace keeps the visible characters. *)
Lemma re_sub_visible (m : list N -> option nat) (repl : list N)
    (skip : nat) (s : list N) :
  matches_whitespace m -> Forall (fun c => isspace c = true) repl ->
  (skip <= run_length isspace s)%nat ->
  visible (re_sub_from m repl skip s) = visible s.
Proof.
  intros Hm Hrepl. revert skip.
  induction s as [|c r IH]; intros skip Hskip; [done|].
  cbn [re_sub_from]. destruct skip as [|k].
  - destruct (m (c :: r)) as [[|n]|] eqn:Em.
    + simpl. destruct (negb (isspace c)); [f_equal|]; apply IH; lia.
    + apply Hm in Em. simpl in Em |- *.
      destruct (isspace c) eqn:Ec; [|lia].
      rewrite visible_app, (visible_whitespace repl Hrepl). simpl.
      apply IH. lia.
    + simpl. destruct (negb (isspace c)); [f_equal|]; apply IH; lia.
  - simpl in Hskip |- *. destruct (isspace c) eqn:Ec; [|lia].
    simpl. apply IH. lia.
Qed.

(** Removing the matches leaves a subsequence. *)
Lemma re_sub_sublist (m : list N -> option nat) (skip : nat) (s : list N) :
  sublist (re_sub_from m [] skip s) s.
Proof.
  revert skip. induction s as [|c r IH]; intros skip; [constructor|].
  cbn [re_sub_from]. destruct skip as [|k]; [|by constructor].
  destruct (m (c :: r)) as [[|n]|]; simpl; by constructor.
Qed.

Lemma visible_join_cons (p : list N) (ps : list (list N)) :
  visible (join [LF] (p :: ps)) = visible p ++ visible (join [LF] ps).
Proof.
  destruct ps as [|q ps]; simpl; [by rewrite app_nil_r|].
  by rewrite !visible_app.
Qed.

Lemma visible_rstrip (s : list N) : visible (rstrip s) = visible s.
Proof. apply ws_removed_visible, ws_removed_rstrip. Qed.

Lemma islinebreak_isspace (c : N) : islinebreak c = true -> isspace c = true.
Proof.
  unfold islinebreak, isspace.
  rewrite !orb_true_iff, !andb_true_iff, !N.leb_le, !N.eqb_eq.
  intros H.
  destruct (N.leb_spec 9 c), (N.leb_spec c 13), (N.leb_spec 28 c),
    (N.leb_spec c 32); simpl; try tauto; try lia.
  all: destruct H as [[[[?|?]|?]|?]|?]; try lia; subst c; tauto.
Qed.

(** Splitting into lines, trimming them and joining them again keeps the
    visible characters. *)
Lemma lines_from_visible (n : nat) (s cur : list N) :
  (length s <= n)%nat ->
  visible (lines_from cur s) = visible cur ++ visible s.
Proof.
  revert s cur. induction n as [|n IH]; intros s cur Hn.
  { destruct s; [|simpl in Hn; lia].
    rewrite lines_from_nil, app_nil_r. apply visible_rstrip. }
  destruct s as [|c r].
  { rewrite lines_from_nil, app_nil_r. apply visible_rstrip. }
  simpl in Hn. destruct (islinebreak c) eqn:Ec.
  - pose proof (islinebreak_isspace c Ec) as Hsp.
    assert (Hc : visible (c :: r) = visible r) by (simpl; by rewrite Hsp).
    rewrite Hc. unfold lines_from. cbn [splitlines_from]. rewrite Ec.
    destruct r as [|d r'].
    + cbn [List.map]. by rewrite visible_join_cons, visible_rstrip.
    + destruct ((c =? 13) && (d =? 10)) eqn:Ecr.
      * cbn [List.map]. rewrite visible_join_cons, visible_rstrip.
        apply andb_true_iff in Ecr as [_ Hd]. apply N.eqb_eq in Hd. subst d.
        f_equal. simpl.
        exact (IH r' [] ltac:(simpl in Hn; lia)).
      * cbn [List.map]. rewrite visible_join_cons, visible_rstrip.
        f_equal. exact (IH (d :: r') [] ltac:(lia)).
  - rewrite lines_from_char by done.
    rewrite (IH r (cur ++ [c]) ltac:(lia)), visible_app, <- app_assoc.
    by rewrite <- (visible_app [c] r).
Qed.

Lemma clean_urls_visible (urls : list (list N)) (s : list N) :
  sublist (visible (clean_urls urls s)) (visible s).
Proof.
  unfold clean_urls. revert s.
  induction urls as [|u urls IH]; intros s; simpl; [done|].
  etrans; [apply IH|].
  rewrite (ws_removed_visible _ _ (ws_removed_strip _)).
  apply visible_sublist, re_sub_sublist.
Qed.

Lemma farcaster_lines_visible (x : list N) :
  visible (farcaster_lines x) = visible x.
Proof.
  unfold farcaster_lines.
  change (join [LF] (List.map rstrip (splitlines ?z))) with (lines_from [] z).
  rewrite (lines_from_visible _ _ [] (Nat.le_refl _)). simpl.
  unfold re_sub, replace, re_sub.
  rewrite re_sub_visible; [|apply blank_lines_whitespace|by repeat constructor|lia].
  rewrite re_sub_visible;
    [|apply match_literal_whitespace; by repeat constructor
     |by repeat constructor|lia].
  apply re_sub_visible;
    [apply match_literal_whitespace; by repeat constructor
    |by repeat constructor|lia].
Qed.

(** X4.  The normaliser neither invents nor reorders visible characters:
    the non-whitespace characters of the cleaned text are a subsequence of
    those of the input, in either mode, and are exactly those of the input
    when the input holds no URL. *)
Theorem cleaned_visible (t : list N) (for_farcaster : bool)
    (cleaned : list N) (urls : list (list N)) :
  extract_and_clean_text t for_farcaster = Some (cleaned, urls) ->
  sublist (visible cleaned) (visible t)
  /\ (findall url_pattern t = [] -> visible cleaned = visible t /\ urls = []).
Proof.
  unfold extract_and_clean_text.
  destruct (short_urls (findall url_pattern t)) as [short|] eqn:Es; [|done].
  intros [= <- <-].
  assert (Hv : forall x,
    visible (strip (if for_farcaster then farcaster_lines x
                    else re_sub ws_plus [SP] x)) = visible x).
  { intros x. rewrite (ws_removed_visible _ _ (ws_removed_strip _)).
    destruct for_farcaster; [apply farcaster_lines_visible|].
    apply re_sub_visible;
      [apply ws_plus_whitespace|by repeat constructor|lia]. }
  rewrite Hv. split; [apply clean_urls_visible|].
  intros Hnone. rewrite Hnone in Es |- *. simpl in Es. by inversion Es.
Qed.

Lemma cleaned_visible_witness :
  sublist (visible (str "Hello big world"))
          (visible (str "Hello  https://x.co/a   big world   www.z.y")).
Proof.
  apply (cleaned_visible (str "Hello  https://x.co/a   big world   www.z.y")
           false (str "Hello big world") [str "https://x.co/a"; str "www.z.y"]).
  vm_compute. reflexivity.
Defined.


(** ** Normal forms of the cleaned text *)

Lemma splitlines_from_no_breaks (n : nat) (s cur : list N) :
  (length s <= n)%nat -> Forall (fun c => islinebreak c = false) cur ->
  Forall (Forall (fun c => islinebreak c = false)) (splitlines_from cur s).
Proof.
  revert s cur. induction n as [|n IH]; intros s cur Hn Hcur.
  { destruct s; [|simpl in Hn; lia]. simpl.
    destruct cur; [constructor|constructor; [done|constructor]]. }
  destruct s as [|c r].
  { simpl. destruct cur; [constructor|constructor; [done|constructor]]. }
  simpl in Hn. cbn [splitlines_from]. destruct (islinebreak c) eqn:Ec.
  - destruct r as [|d r'].
    + constructor; [done|]. simpl. constructor.
    + destruct ((c =? 13) && (d =? 10)); constructor; try done;
        apply IH; simpl in *; try lia; constructor.
  - apply IH; [lia|]. apply Forall_app; split; [done|by repeat constructor].
Qed.

Lemma join_Forall (Q : N -> Prop) (sep : list N) (ps : list (list N)) :
  Forall Q sep -> Forall (Forall Q) ps -> Forall Q (join sep ps).
Proof.
  intros Hsep. induction 1 as [|p ps Hp Hps IH]; [constructor|].
  destruct ps as [|q ps]; [done|].
  change (join sep (p :: q :: ps)) with (p ++ sep ++ join sep (q :: ps)).
  rewrite !Forall_app. done.
Qed.

Lemma map_rstrip_Forall (Q : N -> Prop) (ls : list (list N)) :
  Forall (Forall Q) ls -> Forall (Forall Q) (List.map rstrip ls).
Proof.
  induction 1 as [|p ps Hp _ IH]; simpl; constructor; [|done].
  eapply ws_removed_Forall; [apply ws_removed_rstrip|done].
Qed.

Lemma join_tidy (ls : list (list N)) :
  Forall (Forall (fun c => c <> LF)) ls ->
  tidy_lines (join [LF] (List.map rstrip ls)).
Proof.
  induction 1 as [|p ps Hp Hps IH]; [done|].
  assert (Hr : tidy_lines (rstrip p)).
  { apply tidy_no_lf. eapply ws_removed_Forall; [apply ws_removed_rstrip|done]. }
  destruct ps as [|q ps]; [done|].
  change (tidy_lines (rstrip p ++ LF :: join [LF] (List.map rstrip (q :: ps)))).
  apply tidy_app_intro; [done| |].
  - destruct (join [LF] (List.map rstrip (q :: ps))) eqn:E; [done|].
    split; done.
  - intros c Hc _ Hsp. apply rstrip_last in Hc. congruence.
Qed.

Lemma strip_tidy (s : list N) : tidy_lines s -> tidy_lines (strip s).
Proof.
  intros H. destruct (strip_split s) as (a & b & E & _ & _).
  rewrite E in H. apply tidy_app_elim in H as (_ & H & _).
  by apply tidy_app_elim in H as (H & _).
Qed.

(** Whatever is split into lines, trimmed line by line, joined with [\n] and
    stripped has [\n] as its only line boundary, no line that ends with a
    whitespace, and no whitespace at either end. *)
Lemma joined_lines_normal (z : list N) :
  let f := strip (join [LF] (List.map rstrip (splitlines z))) in
  lf_lines f /\ tidy_lines f
  /\ (forall c, head f = Some c -> isspace c = false)
  /\ (forall c, last f = Some c -> isspace c = false).
Proof.
  intros f.
  pose proof (splitlines_from_no_breaks _ z [] (Nat.le_refl _)
                ltac:(constructor)) as Hl.
  fold (splitlines z) in Hl.
  split; [|split; [|apply strip_ends]].
  - eapply ws_removed_Forall; [apply ws_removed_strip|].
    apply join_Forall; [by repeat constructor|].
    apply map_rstrip_Forall. eapply Forall_impl; [exact Hl|].
    intros l Hq. eapply Forall_impl; [exact Hq|]. simpl. congruence.
  - apply strip_tidy, join_tidy. eapply Forall_impl; [exact Hl|].
    intros l Hq. eapply Forall_impl; [exact Hq|]. simpl.
    intros c Hc ->. by vm_compute in Hc.
Qed.

(** X5.  The cleaned text of the default mode: every whitespace it holds is
    one space that stands alone, between two characters that are no
    whitespace; no newline or tab survives. *)
Theorem cleaned_text_single_spaced (t cleaned : list N)
    (urls : list (list N)) :
  extract_and_clean_text t false = Some (cleaned, urls) ->
  single_spaced false cleaned
  /\ (forall c, head cleaned = Some c -> isspace c = false)
  /\ (forall c, last cleaned = Some c -> isspace c = false).
Proof.
  unfold extract_and_clean_text.
  destruct (short_urls (findall url_pattern t)) as [short|]; [|done].
  intros [= <- <-]. split; [|apply strip_ends].
  apply single_spaced_strip, collapse_single_spaced; [lia|done].
Qed.

Lemma cleaned_text_single_spaced_witness :
  single_spaced false (str "Hello big world").
Proof.
  apply (cleaned_text_single_spaced
           (str "Hello  https://x.co/a   big world   www.z.y")
           (str "Hello big world") [str "https://x.co/a"; str "www.z.y"]).
  vm_compute. reflexivity.
Defined.

(** X6.  The line-preserving cleaned text (Farcaster): its only
    line boundary is [\n], no line ends with a whitespace, it neither
    begins nor ends with a whitespace, and, when the line boundaries of the
    input are [\n] and [\r] only, no more than one blank line stands between
    two lines. *)
Theorem cleaned_text_lines (t cleaned : list N) (urls : list (list N)) :
  extract_and_clean_text t true = Some (cleaned, urls) ->
  lf_lines cleaned /\ tidy_lines cleaned
  /\ (forall c, head cleaned = Some c -> isspace c = false)
  /\ (forall c, last cleaned = Some c -> isspace c = false)
  /\ (plain_lines t -> two_newlines 0 cleaned).
Proof.
  unfold extract_and_clean_text.
  destruct (short_urls (findall url_pattern t)) as [short|]; [|done].
  intros [= <- <-]. unfold farcaster_lines.
  set (z := re_sub blank_lines [LF; LF] _).
  destruct (joined_lines_normal z) as (H1 & H2 & H3 & H4).
  do 4 (split; [done|]). intros Hplain.
  assert (Hz : lf_lines z).
  { apply re_sub_from_Forall; [by repeat constructor|].
    by apply normalised_endings, clean_urls_plain. }
  eapply ws_removed_two_newlines; [apply ws_removed_strip|].
  eapply ws_removed_two_newlines;
    [exact (lines_from_ws_removed z [] Hz)|].
  apply sub_two_newlines; [by left|lia].
Qed.

Lemma cleaned_text_lines_witness :
  tidy_lines [97; 10; 10; 98].
Proof.
  apply (cleaned_text_lines [97; 32; 13; 10; 10; 32; 10; 10; 98; 32]
           [97; 10; 10; 98] []).
  vm_compute. reflexivity.
Defined.

(** X7.  [format_text], for every text: the result has [\n] as its only
    line boundary, no line that ends with a whitespace and no whitespace at
    either end, and it holds the visible characters of the input, all of
    them and in their order. *)
Theorem format_text_normal_form (t : list N) :
  lf_lines (format_text t) /\ tidy_lines (format_text t)
  /\ (forall c, head (format_text t) = Some c -> isspace c = false)
  /\ (forall c, last (format_text t) = Some c -> isspace c = false)
  /\ visible (format_text t) = visible t.
Proof.
  unfold format_text.
  set (z := re_sub newlines3 [LF; LF] _).
  destruct (joined_lines_normal z) as (H1 & H2 & H3 & H4).
  do 4 (split; [done|]).
  rewrite (ws_removed_visible _ _ (ws_removed_strip _)).
  change (join [LF] (List.map rstrip (splitlines z))) with (lines_from [] z).
  rewrite (lines_from_visible _ _ [] (Nat.le_refl _)). simpl.
  unfold z, re_sub, replace, re_sub.
  rewrite re_sub_visible;
    [|apply newlines3_whitespace|by repeat constructor|lia].
  rewrite re_sub_visible;
    [|apply match_literal_whitespace; by repeat constructor
     |by repeat constructor|lia].
  apply re_sub_visible;
    [apply match_literal_whitespace; by repeat constructor
    |by repeat constructor|lia].
Qed.


(** ** The Bluesky client *)

Lemma retry_loop_st_invariant {St A} (func : nat -> St -> result A * St)
    (rnd : nat -> Q) (Inv : nat -> St -> Prop) (budget attempt : nat)
    (last : option exn) (slept : list Q) (s : St) :
  (forall k s, Inv k s -> Inv (S k) (snd (func k s))) ->
  Inv attempt s ->
  Inv (invocations (snd (fst (retry_loop_st func rnd attempt budget last slept s))))
      (snd (retry_loop_st func rnd attempt budget last slept s)).
Proof.
  intros Hstep. revert attempt last slept s.
  induction budget as [|b IH]; intros attempt last slept s Hs; simpl; [done|].
  pose proof (Hstep attempt s Hs) as H1.
  destruct (func attempt s) as [[v|e] s1]; simpl in H1; [done|].
  destruct (exn_response e) as [[code|]|]; try done.
  destruct (code =? 429)%Z; [|done]. by apply IH.
Qed.

(** An invocation that raises an exception without a [response] ends the
    retry executor at once. *)
Lemma retry_loop_st_hard_failure {St A} (func : nat -> St -> result A * St)
    (rnd : nat -> Q) (max_retries : Z) (s s' : St) (e : exn) :
  (0 < max_retries)%Z -> func 0%nat s = (Raised e, s') ->
  exn_response e = None ->
  post_with_retry_st func rnd max_retries s = (Raised e, RetryTrace 1 [], s').
Proof.
  intros Hmax Hf He. unfold post_with_retry_st.
  destruct (Z.to_nat max_retries) as [|b] eqn:E; [lia|].
  simpl. by rewrite Hf, He.
Qed.

Section BlueskyProperties.

Variable json : Type.
Variable truthy : json -> bool.
Variable getitem : json -> string -> result json.
Variable requests_post :
  list (request json) -> request json -> result (response json).

Lemma create_session_effect (c : client json) :
  handle (snd (create_session requests_post c)) = handle c
  /\ password (snd (create_session requests_post c)) = password c
  /\ sent (snd (create_session requests_post c))
     = sent c ++ [CreateSession (handle c) (password c)]
  /\ (forall e, fst (create_session requests_post c) = Raised e ->
        session (snd (create_session requests_post c)) = session c).
Proof.
  unfold create_session, bind, post, raise_for_status, lift, set_session,
    raise, ret.
  destruct (requests_post (sent c) _) as [resp|e0]; simpl; [|done].
  destruct (status_code resp =? 401)%Z; simpl; [done|].
  destruct ((400 <=? status_code resp)%Z && (status_code resp <? 600)%Z);
    simpl; [done|].
  by destruct (response_json resp).
Qed.

Lemma ensure_session_held (c : client json) :
  has_session truthy c = true ->
  ensure_session truthy requests_post c = (Returned tt, c).
Proof. intros H. unfold ensure_session. by rewrite H. Qed.

Lemma ensure_session_effect (c : client json) :
  handle (snd (ensure_session truthy requests_post c)) = handle c
  /\ password (snd (ensure_session truthy requests_post c)) = password c
  /\ exists extra,
       sent (snd (ensure_session truthy requests_post c)) = sent c ++ extra
       /\ Forall (fun rq => is_create_session rq = true) extra.
Proof.
  unfold ensure_session. destruct (has_session truthy c).
  - simpl. do 2 (split; [done|]). exists []. by rewrite app_nil_r.
  - destruct (create_session_effect c) as (H1 & H2 & H3 & _).
    do 2 (split; [done|]). eexists. split; [exact H3|].
    by repeat constructor.
Qed.

Lemma upload_image_too_large (img : list N) (c : client json) :
  (1000000 < Z.of_nat (length img))%Z ->
  (exists e, fst (upload_image truthy getitem requests_post img c) = Raised e
             /\ exn_response e = None
             \/ fst (upload_image truthy getitem requests_post img c) = Raised e
                /\ has_session truthy c = false)
  /\ exists extra,
       sent (snd (upload_image truthy getitem requests_post img c))
       = sent c ++ extra
       /\ Forall (fun rq => is_create_session rq = true) extra.
Proof.
  intros Hbig. unfold upload_image, bind.
  destruct (ensure_session_effect c) as (_ & _ & extra & Hx & Hcs).
  pose proof (ensure_session_held c) as Hheld.
  destruct (ensure_session truthy requests_post c) as [[[]|e] c1]; simpl in *.
  - apply Z.ltb_lt in Hbig. rewrite Hbig. simpl.
    split; [|by exists extra]. eexists. by left.
  - split; [|by exists extra]. exists e. right. split; [done|].
    destruct (has_session truthy c); [|done]. by specialize (Hheld eq_refl).
Qed.

(** X8.  An image of more than 1,000,000 bytes never reaches Bluesky: the
    post raises, and the only requests it may have made before are session
    requests; no blob is uploaded and no record is created. *)
Theorem oversize_image_never_uploaded (text img : list N) (now : Z)
    (c : client json) :
  (1000000 < Z.of_nat (length img))%Z ->
  (exists e,
     fst (create_post truthy getitem requests_post text (Some img) now c)
     = Raised e)
  /\ exists extra,
       sent (snd (create_post truthy getitem requests_post text (Some img) now c))
       = sent c ++ extra
       /\ Forall (fun rq => is_create_session rq = true) extra.
Proof.
  intros Hbig. unfold create_post, bind, lift.
  destruct (ensure_session_effect c) as (_ & _ & x1 & Hx1 & Hc1).
  destruct (ensure_session truthy requests_post c) as [[[]|e] c1];
    simpl in Hx1 |- *; [|split; [by eexists|by exists x1]].
  destruct (link_facets (format_text text)) as [facets|e]; simpl;
    [|split; [by eexists|by exists x1]].
  destruct (upload_image_too_large img c1 Hbig) as ((e & He) & x2 & Hx2 & Hc2).
  destruct (upload_image truthy getitem requests_post img c1)
    as [[blob|e'] c2]; simpl in *.
  - destruct He as [[? _]|[? _]]; done.
  - split; [by eexists|]. exists (x1 ++ x2).
    rewrite Hx2, Hx1, app_assoc. split; [done|]. by apply Forall_app.
Qed.

(** X9.  With a session at hand, the retry executor gives up such a post at
    its first invocation: the exception carries no response, nothing is
    slept, and no request is made. *)
Theorem oversize_image_not_retried (text img : list N) (clock : nat -> Z)
    (rnd : nat -> Q) (max_retries : Z) (c : client json) :
  has_session truthy c = true ->
  (1000000 < Z.of_nat (length img))%Z ->
  (0 < max_retries)%Z ->
  exists e,
    post_with_retry_st
      (post_to_bluesky truthy getitem requests_post text (Some img) clock)
      rnd max_retries c
    = (Raised e, RetryTrace 1 [], c)
    /\ exn_response e = None.
Proof.
  intros Hs Hbig Hmax. apply Z.ltb_lt in Hbig.
  assert (H : exists e,
    post_to_bluesky truthy getitem requests_post text (Some img) clock 0%nat c
    = (Raised e, c) /\ exn_response e = None).
  { unfold post_to_bluesky, create_post, upload_image, bind, lift.
    rewrite (ensure_session_held c Hs).
    unfold link_facets.
    destruct (encode (format_text text)); [|by eexists].
    destruct (parse_links (format_text text)); [|by eexists].
    rewrite (ensure_session_held c Hs), Hbig. by eexists. }
  destruct H as (e & H & He). exists e. split; [|done].
  by apply retry_loop_st_hard_failure.
Qed.

Lemma create_post_with_session (text : list N) (image_data : option (list N))
    (now : Z) (c : client json) :
  has_session truthy c = true ->
  session (snd (create_post truthy getitem requests_post text image_data now c))
  = session c
  /\ exists extra,
       sent (snd (create_post truthy getitem requests_post text image_data now c))
       = sent c ++ extra
       /\ Forall (fun rq => is_create_session rq = false) extra
       /\ (length extra <= match image_data with Some _ => 2 | None => 1 end)%nat.
Proof.
  intros Hs.
  unfold create_post, upload_image, bind, lift, post, raise_for_status,
    session_item, raise, ret.
  rewrite (ensure_session_held c Hs).
  destruct image_data as [img|];
    [rewrite (ensure_session_held c Hs)|];
    repeat (case_match; simplify_eq/=); (split; [done|]);
    first [ exists []; rewrite app_nil_r; by repeat constructor
          | eexists; split;
            [rewrite <- ?app_assoc; reflexivity
            |split; [by repeat constructor|simpl; lia]] ].
Qed.

(** X10.  A session that is held is reused: however often the retry executor
    invokes the post, no session request is made and the session stays the
    same; an invocation makes two requests at most (one without an
    image). *)
Theorem session_is_reused (text : list N) (image_data : option (list N))
    (clock : nat -> Z) (rnd : nat -> Q) (max_retries : Z) (c : client json) :
  has_session truthy c = true ->
  let run :=
    post_with_retry_st
      (post_to_bluesky truthy getitem requests_post text image_data clock)
      rnd max_retries c in
  session (snd run) = session c
  /\ exists extra,
       sent (snd run) = sent c ++ extra
       /\ Forall (fun rq => is_create_session rq = false) extra
       /\ (length extra
           <= match image_data with Some _ => 2 | None => 1 end
              * invocations (snd (fst run)))%nat.
Proof.
  intros Hs run.
  set (n := match image_data with Some _ => 2%nat | None => 1%nat end).
  pose (Inv := fun (k : nat) (c' : client json) =>
    session c' = session c
    /\ exists extra,
         sent c' = sent c ++ extra
         /\ Forall (fun rq => is_create_session rq = false) extra
         /\ (length extra <= n * k)%nat).
  apply (retry_loop_st_invariant _ rnd Inv).
  - intros k c1 (H1 & x1 & H2 & H3 & H4).
    assert (Hs1 : has_session truthy c1 = true).
    { unfold has_session in *. by rewrite H1. }
    destruct (create_post_with_session text image_data (clock k) c1 Hs1)
      as (G1 & x2 & G2 & G3 & G4).
    unfold post_to_bluesky. split; [congruence|].
    exists (x1 ++ x2). rewrite G2, H2, app_assoc. split; [done|].
    split; [by apply Forall_app|]. rewrite length_app. fold n in G4. lia.
  - split; [done|]. exists []. rewrite app_nil_r.
    split; [done|]. split; [constructor|simpl; lia].
Qed.

(** X11.  A post that returns has created one record, with its last
    request: the text of the record is the formatted text, its facets are
    the link facets of that same text (the key is left out when there is
    none), it embeds a blob exactly when there is an image, and the bearer
    and the repository are those of the session held at the end. *)
Theorem posted_record (text : list N) (image_data : option (list N))
    (now : Z) (c : client json) (uri : json) :
  fst (create_post truthy getitem requests_post text image_data now c)
  = Returned uri ->
  exists earlier bearer repo facets embed held,
    sent (snd (create_post truthy getitem requests_post text image_data now c))
    = earlier
      ++ [CreateRecord bearer repo
            (PostRecord (format_text text) now
               match facets with [] => None | _ => Some facets end embed)]
    /\ parse_links (format_text text) = Some facets
    /\ (is_Some embed <-> is_Some image_data)
    /\ session (snd (create_post truthy getitem requests_post text image_data now c))
       = Some held
    /\ getitem held "accessJwt" = Returned bearer
    /\ getitem held "did" = Returned repo.
Proof.
  unfold create_post, bind, lift, post, raise_for_status, session_item,
    raise, ret.
  destruct (ensure_session truthy requests_post c) as [[[]|e] c1]; [|done].
  unfold link_facets.
  destruct (encode (format_text text)); [|done].
  destruct (parse_links (format_text text)) as [facets|]; [|done].
  destruct image_data as [img|];
    [destruct (upload_image truthy getitem requests_post img c1)
       as [[blob|e] c2]; [|done]|];
    repeat (case_match; simplify_eq/=); try done; intros _;
    (eexists _, _, _, _, _, _; split; [|split; [reflexivity|]]);
    try reflexivity;
    (split; [first [split; intros [? ?]; done | split; intros _; by eexists]
            |eauto]).
Qed.

(** X12.  Wrong credentials are not retried: when no session is held and
    the session request is answered with status 401, the retry executor
    invokes the post once, sleeps nothing and raises a plain [Exception];
    the session request is the only request made. *)
Theorem invalid_credentials_not_retried (text : list N)
    (image_data : option (list N)) (clock : nat -> Z) (rnd : nat -> Q)
    (max_retries : Z) (c : client json) (resp : response json) :
  has_session truthy c = false ->
  requests_post (sent c) (CreateSession (handle c) (password c))
  = Returned resp ->
  status_code resp = 401%Z ->
  (0 < max_retries)%Z ->
  post_with_retry_st
    (post_to_bluesky truthy getitem requests_post text image_data clock)
    rnd max_retries c
  = (Raised (Exn "Exception" None), RetryTrace 1 [],
     Client (handle c) (password c) (session c)
       (sent c ++ [CreateSession (handle c) (password c)])).
Proof.
  intros Hs Hreq Hst Hmax.
  apply retry_loop_st_hard_failure; [done| |done].
  unfold post_to_bluesky, create_post, bind, ensure_session.
  rewrite Hs. unfold create_session, bind, post. rewrite Hreq, Hst. done.
Qed.

End BlueskyProperties.


Lemma big_image_length : (1000000 < Z.of_nat (length big_image))%Z.
Proof. unfold big_image. rewrite length_replicate, Z2Nat.id; lia. Qed.

Lemma oversize_image_never_uploaded_witness :
  exists e,
    fst (create_post id same_item accepting_server (str "photo")
           (Some big_image) 0 (BlueskyClient "handle" "app-password"))
    = Raised e.
Proof.
  apply (oversize_image_never_uploaded bool id same_item accepting_server
           (str "photo") big_image 0 (BlueskyClient "handle" "app-password")).
  apply big_image_length.
Defined.

Lemma oversize_image_not_retried_witness :
  exists e,
    post_with_retry_st
      (post_to_bluesky id same_item accepting_server (str "photo")
         (Some big_image) (fun _ => 0%Z))
      (fun _ => 0%Q) default_max_retries logged_in
    = (Raised e, RetryTrace 1 [], logged_in)
    /\ exn_response e = None.
Proof.
  apply (oversize_image_not_retried bool id same_item accepting_server
           (str "photo") big_image (fun _ => 0%Z) (fun _ => 0%Q)
           default_max_retries logged_in).
  - reflexivity.
  - apply big_image_length.
  - reflexivity.
Defined.

Lemma session_is_reused_witness :
  session (snd (post_with_retry_st
                  (post_to_bluesky id same_item accepting_server
                     (str "see https://a.b") None (fun _ => 0%Z))
                  (fun _ => 0%Q) default_max_retries logged_in))
  = session logged_in.
Proof.
  apply (session_is_reused bool id same_item accepting_server
           (str "see https://a.b") None (fun _ => 0%Z) (fun _ => 0%Q)
           default_max_retries logged_in).
  reflexivity.
Defined.

Lemma posted_record_witness :
  exists earlier bearer repo facets embed held,
    sent (snd (create_post id same_item accepting_server
                 (str "see https://a.b") None 0 logged_in))
    = earlier
      ++ [CreateRecord bearer repo
            (PostRecord (format_text (str "see https://a.b")) 0
               match facets with [] => None | _ => Some facets end embed)]
    /\ parse_links (format_text (str "see https://a.b")) = Some facets
    /\ (is_Some embed <-> is_Some (@None (list N)))
    /\ session (snd (create_post id same_item accepting_server
                       (str "see https://a.b") None 0 logged_in))
       = Some held
    /\ same_item held "accessJwt" = Returned bearer
    /\ same_item held "did" = Returned repo.
Proof.
  apply (posted_record bool id same_item accepting_server
           (str "see https://a.b") None 0 logged_in true).
  vm_compute. reflexivity.
Defined.

Lemma invalid_credentials_not_retried_witness :
  post_with_retry_st
    (post_to_bluesky id same_item refusing_server (str "hello") None
       (fun _ => 0%Z))
    (fun _ => 0%Q) default_max_retries (BlueskyClient "handle" "app-password")
  = (Raised (Exn "Exception" None), RetryTrace 1 [],
     Client "handle" "app-password" None
       [CreateSession "handle" "app-password"]).
Proof.
  apply (invalid_credentials_not_retried bool id same_item refusing_server
           (str "hello") None (fun _ => 0%Z) (fun _ => 0%Q)
           default_max_retries (BlueskyClient "handle" "app-password")
           (Response 401 (Returned false))); reflexivity.
Defined.


(** ** The debounce window, from a process at rest *)

Section ManagerScenarios.

Variable w : nat -> world.
Variable send_raises : Z -> string -> option exn.

Lemma send_message_published (chat : Z) (msg : string) (st : state) :
  published (fst (send_message send_raises chat msg st)) = published st
  /\ now (fst (send_message send_raises chat msg st)) = now st.
Proof. unfold send_message. by destruct (send_raises chat msg). Qed.

Lemma wait_and_post_elapsed_published (user_id : string) (st : state) :
  now (fst (wait_and_post_elapsed w send_raises user_id st)) = now st
  /\ published (fst (wait_and_post_elapsed w send_raises user_id st))
     = published st
       ++ match pending_posts st !! user_id with
          | Some p =>
              match pp_image_data p with
              | None => [(pp_text p, None)]
              | Some _ => []
              end
          | None => []
          end.
Proof.
  unfold wait_and_post_elapsed, call_post_to_social, send_message, cleanup,
    set_pending.
  repeat (case_match; simplify_eq/=); rewrite ?app_nil_r; done.
Qed.

Lemma run_task_done_id (i : nat) (st : state) :
  (forall t, tasks st !! i = Some t -> exists c, t_state t = Done c) ->
  run_task w send_raises i st = st.
Proof.
  intros H. unfold run_task. destruct (tasks st !! i) as [t|]; [|done].
  destruct (H t eq_refl) as [c ->]. done.
Qed.

Lemma foldl_run_task_done (l : list nat) (st : state) :
  (forall i t, i ∈ l -> tasks st !! i = Some t -> exists c, t_state t = Done c) ->
  foldl (fun st i => run_task w send_raises i st) st l = st.
Proof.
  induction l as [|i l IH]; intros H; simpl; [done|].
  rewrite run_task_done_id.
  - apply IH. intros j t Hj. apply H. by right.
  - intros t. apply H. by left.
Qed.

Lemma loop_turn_all_done (st : state) :
  Forall (fun t => exists c, t_state t = Done c) (tasks st) ->
  loop_turn w send_raises st = st.
Proof.
  intros H. apply foldl_run_task_done. intros i t _ Hi.
  rewrite Forall_lookup in H. by apply (H i).
Qed.

Lemma loop_turn_last (pend : gmap string pending_post) (ts : list task)
    (tk : task) (clock : Z) (pub : list (list N * option (list N)))
    (rep : list (Z * string)) :
  Forall (fun t => exists c, t_state t = Done c) ts ->
  loop_turn w send_raises (State pend (ts ++ [tk]) clock pub rep)
  = run_task w send_raises (length ts) (State pend (ts ++ [tk]) clock pub rep).
Proof.
  intros H. unfold loop_turn. cbn [tasks].
  rewrite length_app. cbn [length]. rewrite Nat.add_1_r, seq_S, foldl_app.
  rewrite (foldl_run_task_done (seq 0 (length ts))); [reflexivity|].
  intros i t Hi. apply elem_of_seq in Hi. cbn [tasks].
  rewrite lookup_app_l by lia. rewrite Forall_lookup in H. apply H.
Qed.

Lemma finish_last (pend : gmap string pending_post) (ts : list task)
    (tk : task) (clock : Z) (pub : list (list N * option (list N)))
    (rep : list (Z * string)) (s : task_state) :
  finish (length ts) s (State pend (ts ++ [tk]) clock pub rep)
  = State pend (ts ++ [Task (t_user tk) s (t_cancel_requested tk)])
      clock pub rep.
Proof.
  unfold finish, set_tasks. cbn.
  rewrite list_lookup_middle by done.
  rewrite insert_app_r_alt by lia. by rewrite Nat.sub_diag.
Qed.

Lemma settled_tick (dt : Z) (st : state) :
  settled st ->
  step w send_raises st (Tick dt)
  = State (pending_posts st) (tasks st) (now st + dt) (published st)
      (replies st).
Proof.
  intros [_ H]. unfold step.
  rewrite (loop_turn_all_done st H). by apply loop_turn_all_done.
Qed.

Lemma settled_ticks (ticks : list Z) (st : state) :
  settled st ->
  settled (run w send_raises (Tick <$> ticks) st)
  /\ published (run w send_raises (Tick <$> ticks) st) = published st
  /\ replies (run w send_raises (Tick <$> ticks) st) = replies st.
Proof.
  unfold run. revert st.
  induction ticks as [|dt ticks IH]; intros st H; [done|].
  rewrite fmap_cons. cbn [foldl]. rewrite (settled_tick dt st H).
  destruct H as [H1 H2].
  destruct (IH (State (pending_posts st) (tasks st) (now st + dt)
                  (published st) (replies st))) as (G1 & G2 & G3); [done|].
  done.
Qed.

Lemma cancel_last (pend : gmap string pending_post) (ts : list task)
    (tk : task) (clock : Z) (pub : list (list N * option (list N)))
    (rep : list (Z * string)) :
  (forall c, t_state tk <> Done c) ->
  cancel (length ts) (State pend (ts ++ [tk]) clock pub rep)
  = State pend (ts ++ [Task (t_user tk) (t_state tk) true]) clock pub rep.
Proof.
  intros H. unfold cancel, set_tasks. cbn.
  rewrite list_lookup_middle by done.
  destruct (t_state tk) eqn:E; try (by destruct (H c));
    rewrite insert_app_r_alt by lia; by rewrite Nat.sub_diag.
Qed.

Lemma waiting_tick (user_id : string) (chat : Z) (t : list N) (since : Z)
    (ts : list task) (timer : task_state) (clock wake dt : Z)
    (pub : list (list N * option (list N))) (rep : list (Z * string)) :
  Forall (fun t => exists c, t_state t = Done c) ts ->
  armed timer clock wake -> (0 <= dt)%Z ->
  let st' := step w send_raises
               (waiting user_id chat t since ts timer clock pub rep) (Tick dt) in
  if (wake <=? clock + dt)%Z
  then settled st' /\ published st' = pub ++ [(t, None)]
  else st' = waiting user_id chat t since ts (Sleeping wake) (clock + dt) pub rep.
Proof.
  intros Hts Harmed Hdt. unfold waiting, step.
  assert (E1 : loop_turn w send_raises
                 (State {[user_id := PendingPost t since (length ts) chat None]}
                    (ts ++ [Task user_id timer false]) clock pub rep)
               = State {[user_id := PendingPost t since (length ts) chat None]}
                   (ts ++ [Task user_id (Sleeping wake) false]) clock pub rep).
  { rewrite loop_turn_last by done. unfold run_task. cbn [tasks].
    rewrite list_lookup_middle by done. cbn.
    destruct Harmed as [[-> ->]|[-> Hlt]].
    - by rewrite finish_last.
    - destruct (Z.leb_spec wake clock); [lia|done]. }
  rewrite E1. cbn [pending_posts tasks now published replies].
  rewrite loop_turn_last by done. unfold run_task. cbn [tasks].
  rewrite list_lookup_middle by done. cbn.
  destruct (Z.leb_spec wake (clock + dt)) as [Hle|Hgt]; [|done].
  set (X := State _ _ _ _ _).
  pose proof (wait_and_post_elapsed_frame w send_raises user_id X) as [F1 F2].
  pose proof (wait_and_post_elapsed_published user_id X) as [F3 F4].
  destruct (wait_and_post_elapsed w send_raises user_id X)
    as [[pend' ts' clock' pub' rep'] c].
  cbn in F1, F2, F3, F4. rewrite lookup_singleton_eq in F4. cbn in F4.
  rewrite delete_singleton_eq in F1. subst.
  rewrite finish_last. split; [|done]. split; [done|]. cbn.
  apply Forall_app. split; [done|]. repeat constructor. by eexists.
Qed.

Lemma waiting_ticks (user_id : string) (chat : Z) (t : list N) (since : Z)
    (ts : list task) (pub : list (list N * option (list N)))
    (rep : list (Z * string)) (wake : Z) (ticks : list Z) :
  Forall (fun t => exists c, t_state t = Done c) ts ->
  Forall (fun dt => (0 <= dt)%Z) ticks ->
  forall (timer : task_state) (clock : Z),
  armed timer clock wake ->
  let st' := run w send_raises (Tick <$> ticks)
               (waiting user_id chat t since ts timer clock pub rep) in
  if (wake <=? clock + foldr Z.add 0%Z ticks)%Z
  then settled st' /\ published st' = pub ++ [(t, None)]
  else exists timer',
         armed timer' (clock + foldr Z.add 0%Z ticks) wake
         /\ st' = waiting user_id chat t since ts timer'
                   (clock + foldr Z.add 0%Z ticks) pub rep.
Proof.
  intros Hts Hticks. unfold run.
  induction Hticks as [|dt ticks Hdt Hticks IH]; intros timer clock Harmed.
  { cbn [fmap list_fmap foldl foldr]. rewrite Z.add_0_r.
    assert (Hlt : (clock < wake)%Z) by (destruct Harmed as [[_ ->]|[_ ?]]; lia).
    destruct (Z.leb_spec wake clock); [lia|]. by exists timer. }
  rewrite fmap_cons. cbn [foldl foldr].
  pose proof (waiting_tick user_id chat t since ts timer clock wake dt pub rep
                Hts Harmed Hdt) as Hstep.
  cbn zeta in Hstep.
  assert (Hsum : (0 <= foldr Z.add 0%Z ticks)%Z).
  { clear -Hticks. induction Hticks; simpl; lia. }
  destruct (Z.leb_spec wake (clock + dt)) as [Hle|Hgt].
  - destruct Hstep as [Hs Hp].
    destruct (settled_ticks ticks _ Hs) as (G1 & G2 & _). unfold run in G1, G2.
    destruct (Z.leb_spec wake (clock + (dt + foldr Z.add 0%Z ticks))); [|lia].
    split; [done|]. by rewrite G2.
  - rewrite Hstep.
    specialize (IH (Sleeping wake) (clock + dt)%Z ltac:(right; done)).
    cbn zeta in IH. rewrite <- Z.add_assoc in IH. exact IH.
Qed.

Lemma text_waits (user_id : string) (chat : Z) (t : list N) (st : state) :
  settled st -> is_Some (extract_and_clean_text t false) ->
  step w send_raises st (Text user_id chat t)
  = waiting user_id chat t (now st) (tasks st) Created (now st)
      (published st) (replies st).
Proof.
  intros [Hp _] [v Hv]. unfold step, handle_message, waiting. rewrite Hv.
  rewrite Hp, lookup_empty. unfold set_pending, set_tasks. cbn.
  by rewrite Hp, insert_empty.
Qed.


Lemma photo_in_window (user_id : string) (chat chat' : Z) (t : list N)
    (since : Z) (ts : list task) (timer : task_state) (clock wake : Z)
    (pub : list (list N * option (list N))) (rep : list (Z * string))
    (download : result (list N)) :
  Forall (fun t => exists c, t_state t = Done c) ts ->
  armed timer clock wake ->
  let st' := step w send_raises
               (waiting user_id chat t since ts timer clock pub rep)
               (Photo user_id chat' download) in
  settled st'
  /\ published st'
     = pub ++ match download with
              | Returned image_data => [(t, Some image_data)]
              | Raised _ => []
              end.
Proof.
  intros Hts Harmed. unfold waiting, step, handle_photo.
  cbn [pending_posts]. rewrite lookup_singleton_eq. cbn [pp_task pp_text].
  rewrite cancel_last by (destruct Harmed as [[-> _]|[-> _]]; done).
  cbn [t_user t_state].
  assert (E : exists pend,
    loop_turn w send_raises
      (State {[user_id := PendingPost t since (length ts) chat None]}
         (ts ++ [Task user_id timer true]) clock pub rep)
    = State pend (ts ++ [Task user_id (Done Cancelled) true]) clock pub rep
    /\ delete user_id pend = ∅).
  { rewrite loop_turn_last by done. unfold run_task. cbn [tasks].
    rewrite list_lookup_middle by done.
    cbn [t_state t_cancel_requested t_user].
    destruct Harmed as [[-> _]|[-> _]].
    - rewrite finish_last. eexists. split; [done|]. apply delete_singleton_eq.
    - unfold wait_and_post_cancelled, cleanup, set_pending.
      cbn [pending_posts tasks now published replies].
      rewrite finish_last. eexists. split; [done|].
      by rewrite delete_singleton_eq, delete_empty. }
  destruct E as (pend & -> & Hpend).
  assert (Hdone : Forall (fun t => exists c, t_state t = Done c)
                    (ts ++ [Task user_id (Done Cancelled) true])).
  { apply Forall_app. split; [done|]. repeat constructor. by eexists. }
  unfold call_post_to_social, send_message, cleanup, set_pending.
  repeat (case_match; simplify_eq/=); rewrite ?app_nil_r; done.
Qed.

(** X14.  A photo that arrives while the text waits publishes the text
    with the image, once, and the text is never published alone, however
    long one waits afterwards; when the download of the photo fails, the
    text is dropped and never published. *)
Theorem text_then_photo (user_id : string) (chat chat' : Z) (t : list N)
    (before after : list Z) (download : result (list N)) (st : state) :
  settled st ->
  is_Some (extract_and_clean_text t false) ->
  Forall (fun dt => (0 <= dt)%Z) before ->
  (foldr Z.add 0%Z before < 36)%Z ->
  let st' := run w send_raises
               (Text user_id chat t :: (Tick <$> before)
                ++ Photo user_id chat' download :: (Tick <$> after)) st in
  published st'
  = published st ++ match download with
                    | Returned image_data => [(t, Some image_data)]
                    | Raised _ => []
                    end
  /\ settled st'.
Proof.
  intros Hs Ht Hbefore Hlt st'. unfold st', run. cbn [foldl].
  rewrite (text_waits user_id chat t st Hs Ht). rewrite foldl_app. cbn [foldl].
  pose proof (waiting_ticks user_id chat t (now st) (tasks st) (published st)
                (replies st) (now st + 36)%Z before (proj2 Hs) Hbefore
                Created (now st) ltac:(left; done)) as H.
  cbn zeta in H. unfold run in H.
  destruct (Z.leb_spec (now st + 36) (now st + foldr Z.add 0%Z before)); [lia|].
  destruct H as (timer' & Harmed & ->).
  destruct (photo_in_window user_id chat chat' t (now st) (tasks st) timer'
              (now st + foldr Z.add 0%Z before)%Z (now st + 36)%Z
              (published st) (replies st) download (proj2 Hs) Harmed)
    as [G1 G2].
  destruct (settled_ticks after _ G1) as (K1 & K2 & _).
  unfold run in K1, K2. split; [by rewrite K2|done].
Qed.

(** X15.  A photo without a text before it publishes nothing and starts
    nothing: the table and the tasks stay as they are, and the only effect
    is the reply that asks for a text. *)
Theorem photo_without_text (user_id : string) (chat : Z)
    (download : result (list N)) (st : state) :
  pending_posts st !! user_id = None ->
  let st' := fst (handle_photo w send_raises user_id chat download st) in
  published st' = published st
  /\ pending_posts st' = pending_posts st
  /\ tasks st' = tasks st
  /\ replies st'
     = replies st ++ match send_raises chat "Please send text first." with
                     | None => [(chat, "Please send text first."%string)]
                     | Some _ => []
                     end.
Proof.
  intros H. unfold handle_photo, send_message. rewrite H.
  destruct (send_raises chat _); cbn; rewrite ?app_nil_r; done.
Qed.

(** X16.  Users do not disturb one another: in every state that the
    process reaches, a text of one user leaves the entry of every other
    user as it is, and leaves every task of another user as it is, timer
    and cancellation included. *)
Theorem text_leaves_other_users (evs : list event) (user_id other : string)
    (chat : Z) (t : list N) :
  user_id <> other ->
  let st := run w send_raises evs initial in
  let st' := fst (handle_message user_id chat t st) in
  pending_posts st' !! other = pending_posts st !! other
  /\ forall i tk, tasks st !! i = Some tk -> t_user tk = other ->
       tasks st' !! i = Some tk.
Proof.
  intros Hne st st'.
  pose proof (run_no_orphan w send_raises evs initial) as Hinv.
  fold st in Hinv.
  assert (H0 : no_orphan initial).
  { intros u p Hp. cbn in Hp. by rewrite lookup_empty in Hp. }
  specialize (Hinv H0). unfold st', handle_message.
  destruct (extract_and_clean_text t false); [|done].
  cbn [fst]. split.
  - cbn. rewrite lookup_insert_ne by done.
    by destruct (pending_posts st !! user_id).
  - intros i tk Hi Hu. cbn.
    destruct (pending_posts st !! user_id) as [entry|] eqn:Ep.
    + apply lookup_app_l_Some. rewrite cancel_lookup.
      destruct (Hinv user_id entry Ep) as (t' & Ht' & Hu' & _).
      destruct (decide (pp_task entry = i)) as [<-|]; [|done]. congruence.
    + by apply lookup_app_l_Some.
Qed.

End ManagerScenarios.


Lemma initial_settled : settled initial.
Proof. split; [reflexivity|constructor]. Qed.


Lemma text_then_photo_witness :
  published (run (fun _ => happy_world) (fun _ _ => None)
               [Text alice 7 (str "hello"); Tick 10;
                Photo alice 7 (Returned [255; 216; 255]); Tick 1000] initial)
  = [(str "hello", Some [255; 216; 255])].
Proof.
  apply (text_then_photo (fun _ => happy_world) (fun _ _ => None)
           alice 7 7 (str "hello") [10]%Z [1000]%Z
           (Returned [255; 216; 255]) initial).
  - apply initial_settled.
  - vm_compute. by eexists.
  - repeat constructor; lia.
  - reflexivity.
Defined.

Lemma photo_without_text_witness :
  replies (fst (handle_photo (fun _ => happy_world) (fun _ _ => None)
                  alice 7 (Returned [255; 216; 255]) initial))
  = [(7%Z, "Please send text first."%string)].
Proof.
  apply (photo_without_text (fun _ => happy_world) (fun _ _ => None)
           alice 7 (Returned [255; 216; 255]) initial).
  reflexivity.
Defined.

Lemma text_leaves_other_users_witness :
  pending_posts
    (fst (handle_message alice 7 (str "mine")
            (run (fun _ => happy_world) (fun _ _ => None)
               [Text "43" 8 (str "theirs"); Tick 10] initial))) !! "43"
  = pending_posts
      (run (fun _ => happy_world) (fun _ _ => None)
         [Text "43" 8 (str "theirs"); Tick 10] initial) !! "43".
Proof.
  apply (text_leaves_other_users (fun _ => happy_world) (fun _ _ => None)
           [Text "43" 8 (str "theirs"); Tick 10] alice "43" 7 (str "mine")).
  discriminate.
Defined.


(** ** The temporary file of the Twitter upload *)

Lemma retry_loop_st_invocations {St A} (func : nat -> St -> result A * St)
    (rnd : nat -> Q) (budget attempt : nat) (last : option exn)
    (slept : list Q) (s : St) :
  (attempt
   <= invocations (snd (fst (retry_loop_st func rnd attempt budget last slept s))))%nat
  /\ ((0 < budget)%nat ->
      (attempt
       < invocations (snd (fst (retry_loop_st func rnd attempt budget last slept s))))%nat).
Proof.
  revert attempt last slept s.
  induction budget as [|b IH]; intros attempt last slept s; simpl; [lia|].
  destruct (func attempt s) as [[v|e] s1]; simpl; [lia|].
  destruct (exn_response e) as [[code|]|]; simpl; try lia.
  destruct (code =? 429)%Z; simpl; [|lia].
  destruct (IH (S attempt) (Some e)
              (slept ++ [exponential_backoff (Z.of_nat attempt) 32 (rnd attempt)])
              s1) as [H _].
  lia.
Qed.

Section TwitterFilesProperties.

Variable temp_name : nat -> string.
Variable media_upload : string -> list N -> nat -> result Z.
Variable tweet : list N -> option Z -> nat -> result (option string).

(** X17.  Only the temporary file of the last attempt is removed.  When a
    post with an image has made [n] attempts on Twitter, the file of attempt
    [n - 1] is gone, the file of every earlier attempt under another name is
    still there with the image in it, and no other file has changed.
    Without an image no file changes. *)
Theorem temp_files_left_behind (t : list N) (image_data : option (list N))
    (rnd : nat -> Q) (before : gmap string (list N)) :
  is_Some (extract_and_clean_text t true) ->
  let n := invocations
             (snd (fst (twitter_leg temp_name media_upload tweet t image_data
                          rnd (Disk before None)))) in
  let after := files_after_post temp_name media_upload tweet t image_data
                 rnd before in
  match image_data with
  | None => after = before
  | Some img =>
      (1 <= n)%nat
      /\ after !! temp_name (n - 1) = None
      /\ (forall j, (j < n)%nat -> temp_name j <> temp_name (n - 1) ->
            after !! temp_name j = Some img)
      /\ (forall f, (forall j, (j < n)%nat -> f <> temp_name j) ->
            after !! f = before !! f)
  end.
Proof.
  intros [v Hv] n after. unfold after, files_after_post. rewrite Hv.
  unfold n, twitter_leg, post_with_retry_st.
  destruct image_data as [img|].
  - pose (Inv := fun (k : nat) (d : disk) =>
      temp_file d = match k with O => None | S j => Some (temp_name j) end
      /\ (forall j, (j < k)%nat -> files d !! temp_name j = Some img)
      /\ (forall f, (forall j, (j < k)%nat -> f <> temp_name j) ->
            files d !! f = before !! f)).
    pose proof (retry_loop_st_invariant
      (post_to_twitter temp_name media_upload tweet t (Some img)) rnd Inv
      (Z.to_nat default_max_retries) 0 None [] (Disk before None)) as H.
    pose proof (proj2 (retry_loop_st_invocations
      (post_to_twitter temp_name media_upload tweet t (Some img)) rnd
      (Z.to_nat default_max_retries) 0 None [] (Disk before None))) as Hn.
    set (run := retry_loop_st _ _ _ _ _ _ _) in *.
    destruct H as (H1 & H2 & H3).
    + intros k d (G1 & G2 & G3). unfold post_to_twitter.
      assert (Inv (S k) (Disk (<[temp_name k := img]> (files d))
                           (Some (temp_name k)))) as HI.
      { split; [done|]. split; cbn.
        - intros j Hj.
          destruct (decide (temp_name k = temp_name j)) as [->|Hne].
          + apply lookup_insert_eq.
          + rewrite lookup_insert_ne by done. apply G2.
            assert (j <> k) by congruence. lia.
        - intros f Hf. rewrite lookup_insert_ne.
          + apply G3. intros j Hj. apply Hf. lia.
          + intros E. by apply (Hf k); [lia|]. }
      by destruct (media_upload _ _ _).
    + split; [done|]. split; [intros j Hj; lia|done].
    + specialize (Hn ltac:(vm_compute; lia)).
      destruct (invocations (snd (fst run))) as [|m] eqn:Em; [lia|].
      rewrite H1. cbn. rewrite Nat.sub_0_r.
      split; [lia|]. split; [apply lookup_delete_eq|]. split.
      * intros j Hj Hne. rewrite lookup_delete_ne by done. by apply H2.
      * intros f Hf. rewrite lookup_delete_ne.
        -- by apply H3.
        -- intros E. by apply (Hf m); [lia|].
  - pose (Inv := fun (k : nat) (d : disk) => d = Disk before None).
    pose proof (retry_loop_st_invariant
      (post_to_twitter temp_name media_upload tweet t None) rnd Inv
      (Z.to_nat default_max_retries) 0 None [] (Disk before None)) as H.
    unfold Inv in H. rewrite H; [done| |done].
    intros k d ->. unfold post_to_twitter. done.
Qed.

End TwitterFilesProperties.


Lemma temp_files_left_behind_witness :
  files_after_post two_names (fun _ _ _ => Returned 5%Z) limited_once
    (str "hello") (Some [255; 216; 255]) (fun _ => 0%Q) ∅
    !! "temp_image_1.jpg"
  = Some [255; 216; 255].
Proof.
  assert (H : is_Some (extract_and_clean_text (str "hello") true))
    by (vm_compute; by eexists).
  destruct (temp_files_left_behind two_names (fun _ _ _ => Returned 5%Z)
              limited_once (str "hello") (Some [255; 216; 255])
              (fun _ => 0%Q) ∅ H) as (_ & _ & H3 & _).
  apply (H3 0%nat).
  - vm_compute. lia.
  - vm_compute. discriminate.
Defined.


(** ** Configuration *)

Lemma get_env_var_usable (env : gmap string string) (var_name : string) :
  match get_env_var env var_name with
  | inl value => env !! var_name = Some value /\ value <> ""
  | inr e => ~ usable env var_name /\ e = missing var_name
  end.
Proof.
  unfold get_env_var, usable.
  destruct (env !! var_name) as [value|].
  - destruct (decide (value = "")) as [->|]; [|done].
    split; [|done]. intros (x & [= <-] & Hx). done.
  - split; [|done]. intros (x & [=] & _).
Qed.

(** The variable that fails is the one after [before]. *)
Ltac first_missing before :=
  exists before; eexists _, _;
  split; [reflexivity|];
  split; [repeat (apply List.Forall_cons; [eexists; split; eassumption|]);
          apply List.Forall_nil|];
  split; assumption.

(** X18.  The settings load exactly when each of the nine variables is set
    to a string that is not empty, and then hold their values; otherwise
    the error names the first variable, in the order of the file, that is
    not set or is empty. *)
Theorem config_loading (env : gmap string string) :
  match load_config env with
  | inl cfg =>
      Forall (usable env) required_variables
      /\ List.map (fun v => env !! v) required_variables
         = List.map Some
             [TELEGRAM_TOKEN cfg; TWITTER_CONSUMER_KEY cfg;
              TWITTER_CONSUMER_SECRET cfg; TWITTER_ACCESS_TOKEN cfg;
              TWITTER_ACCESS_TOKEN_SECRET cfg; FARCASTER_AUTH_HEADER cfg;
              IMGUR_CLIENT_ID cfg; BLUESKY_HANDLE cfg;
              BLUESKY_APP_PASSWORD cfg]
  | inr e =>
      exists before var_name after,
        required_variables = before ++ var_name :: after
        /\ Forall (usable env) before
        /\ ~ usable env var_name
        /\ e = missing var_name
  end.
Proof.
  unfold load_config, required_variables.
  repeat
    match goal with
    | |- context [get_env_var env ?v] =>
        let H := fresh "H" in
        pose proof (get_env_var_usable env v) as H;
        destruct (get_env_var env v); destruct H
    end.
  all: try (split;
    [repeat (apply List.Forall_cons; [eexists; split; eassumption|]);
     apply List.Forall_nil
    |cbn [List.map TELEGRAM_TOKEN TWITTER_CONSUMER_KEY TWITTER_CONSUMER_SECRET
          TWITTER_ACCESS_TOKEN TWITTER_ACCESS_TOKEN_SECRET
          FARCASTER_AUTH_HEADER IMGUR_CLIENT_ID BLUESKY_HANDLE
          BLUESKY_APP_PASSWORD];
     repeat match goal with
            | H : _ !! _ = Some _ |- _ => rewrite H; clear H
            end;
     reflexivity]).
  all: first
    [ first_missing (@nil string)
    | first_missing (take 1 required_variables)
    | first_missing (take 2 required_variables)
    | first_missing (take 3 required_variables)
    | first_missing (take 4 required_variables)
    | first_missing (take 5 required_variables)
    | first_missing (take 6 required_variables)
    | first_missing (take 7 required_variables)
    | first_missing (take 8 required_variables) ].
Qed.


(** ** Where what is published comes from *)

Section Provenance.

Variable w : nat -> world.
Variable send_raises : Z -> string -> option exn.

Lemma accounted_more (evs : list event) (ev : event) (st : state) :
  accounted evs st -> accounted (evs ++ [ev]) st.
Proof.
  assert (Hr : forall t, received evs t -> received (evs ++ [ev]) t).
  { intros t (u & c & H). exists u, c. apply elem_of_app. by left. }
  assert (Hd : forall i, downloaded evs i -> downloaded (evs ++ [ev]) i).
  { intros i (u & c & H). exists u, c. apply elem_of_app. by left. }
  intros [H1 H2]. split.
  - intros u p Hp. apply Hr. by apply (H1 u).
  - intros t image Hin. destruct (H2 t image Hin) as [G1 G2].
    split; [by apply Hr|]. intros i Hi. by apply Hd, G2.
Qed.

(** A state that differs from an accounted one by entries removed and by
    the text of one of its entries published alone is accounted. *)
Lemma accounted_after (evs : list event) (st st' : state) :
  accounted evs st ->
  (forall user_id p, pending_posts st' !! user_id = Some p ->
     pending_posts st !! user_id = Some p) ->
  (forall t image, (t, image) ∈ published st' ->
     (t, image) ∈ published st
     \/ image = None /\ exists user_id p,
          pending_posts st !! user_id = Some p /\ pp_text p = t) ->
  accounted evs st'.
Proof.
  intros [H1 H2] Hp Hq. split.
  - intros u p Hu. apply (H1 u). by apply Hp.
  - intros t image Hin.
    destruct (Hq t image Hin) as [Hold|(-> & u & p & Hu & <-)].
    + by apply H2.
    + split; [by apply (H1 u)|]. intros i [=].
Qed.

Lemma run_task_accounted (evs : list event) (i : nat) (st : state) :
  accounted evs st -> accounted evs (run_task w send_raises i st).
Proof.
  intros H. apply (accounted_after evs st); [done| |]; unfold run_task.
  - intros u p. destruct (tasks st !! i) as [t|]; [|done].
    destruct (t_state t) as [|wake|c]; [| |done].
    + by destruct (t_cancel_requested t).
    + destruct (t_cancel_requested t).
      * cbn. intros Hp. by apply lookup_delete_Some in Hp as [_ Hp].
      * destruct (wake <=? now st)%Z; [|done].
        pose proof (wait_and_post_elapsed_frame w send_raises (t_user t) st)
          as [F1 _].
        destruct (wait_and_post_elapsed w send_raises (t_user t) st)
          as [st1 c]. cbn in F1 |- *. rewrite F1.
        intros Hp. by apply lookup_delete_Some in Hp as [_ Hp].
  - intros x image. destruct (tasks st !! i) as [t|]; [|by left].
    destruct (t_state t) as [|wake|c]; [| |by left].
    + destruct (t_cancel_requested t); by left.
    + destruct (t_cancel_requested t); [by left|].
      destruct (wake <=? now st)%Z; [|by left].
      pose proof (wait_and_post_elapsed_published w send_raises (t_user t) st)
        as [_ F2].
      destruct (wait_and_post_elapsed w send_raises (t_user t) st)
        as [st1 c]. cbn in F2 |- *. rewrite F2.
      intros Hin. apply elem_of_app in Hin as [Hin|Hin]; [by left|].
      destruct (pending_posts st !! t_user t) as [p|] eqn:Ep;
        [|by apply elem_of_nil in Hin].
      destruct (pp_image_data p); [by apply elem_of_nil in Hin|].
      apply list_elem_of_singleton in Hin as [= -> ->].
      right. split; [done|]. by exists (t_user t), p.
Qed.

Lemma loop_turn_accounted (evs : list event) (st : state) :
  accounted evs st -> accounted evs (loop_turn w send_raises st).
Proof.
  unfold loop_turn. generalize (seq 0 (length (tasks st))).
  intros l. revert st. induction l as [|i l IH]; intros st H; simpl; [done|].
  apply IH. by apply run_task_accounted.
Qed.

Lemma handle_photo_published (user_id : string) (chat : Z)
    (download : result (list N)) (st : state) :
  published (fst (handle_photo w send_raises user_id chat download st))
  = match pending_posts st !! user_id with
    | None => published st
    | Some p =>
        published (loop_turn w send_raises (cancel (pp_task p) st))
        ++ match download with
           | Returned image_data => [(pp_text p, Some image_data)]
           | Raised _ => []
           end
    end.
Proof.
  unfold handle_photo.
  destruct (pending_posts st !! user_id) as [p|].
  - unfold call_post_to_social, send_message.
    repeat case_match; simplify_eq/=; rewrite ?app_nil_r; done.
  - unfold send_message. by destruct (send_raises chat _).
Qed.

Lemma step_accounted (evs : list event) (ev : event) (st : state) :
  accounted evs st -> accounted (evs ++ [ev]) (step w send_raises st ev).
Proof.
  intros H. destruct ev as [u c t|u c d|dt]; unfold step.
  - unfold handle_message.
    destruct (extract_and_clean_text t false); [|by apply accounted_more].
    apply (accounted_more evs (Text u c t)) in H. destruct H as [H1 H2].
    split.
    + cbn. intros u' q.
      destruct (decide (u = u')) as [<-|Hne].
      * rewrite lookup_insert_eq. intros [= <-]. cbn.
        exists u, c. apply elem_of_app. right. by left.
      * rewrite lookup_insert_ne by done.
        intros Hq. apply (H1 u').
        by destruct (pending_posts st !! u).
    + cbn. intros x image Hin. apply H2.
      by destruct (pending_posts st !! u).
  - pose proof (handle_photo_frame w send_raises u c d st) as Hf.
    pose proof (handle_photo_published u c d st) as Hq.
    destruct (pending_posts st !! u) as [p|] eqn:Ep.
    + assert (Hc : accounted evs (cancel (pp_task p) st)).
      { unfold cancel, set_tasks. by destruct H. }
      apply loop_turn_accounted in Hc.
      apply (accounted_more evs (Photo u c d)) in Hc.
      destruct H as [H1 _]. specialize (H1 u p Ep).
      destruct Hc as [G1 G2]. destruct Hf as [Hf _]. split.
      * intros u' q. rewrite Hf. intros Hq'.
        apply lookup_delete_Some in Hq' as [_ Hq']. by apply (G1 u').
      * intros t image. rewrite Hq. intros Hin.
        apply elem_of_app in Hin as [Hin|Hin]; [by apply G2|].
        destruct d as [img|e]; [|by apply elem_of_nil in Hin].
        apply list_elem_of_singleton in Hin as [= -> ->]. split.
        -- destruct H1 as (u1 & c1 & H1). exists u1, c1.
           apply elem_of_app. by left.
        -- intros i [= <-]. exists u, c. apply elem_of_app. right. by left.
    + apply accounted_more. destruct H as [H1 H2]. destruct Hf as [Hf _].
      split.
      * intros u' q. rewrite Hf. apply H1.
      * intros t image. rewrite Hq. apply H2.
  - apply accounted_more. apply loop_turn_accounted.
    apply loop_turn_accounted in H. by destruct H.
Qed.

(** X19.  Nothing is published that was not sent.  Whatever updates arrive
    and however time passes, every call of [post_to_social] carries the
    text of a text update that was received, and an image only when that
    image was downloaded for a photo update; the same holds for every text
    that waits in the table. *)
Theorem nothing_invented (evs : list event) :
  accounted evs (run w send_raises evs initial).
Proof.
  induction evs as [|ev evs IH] using rev_ind.
  - split.
    + intros u p Hp. cbn in Hp. by rewrite lookup_empty in Hp.
    + intros t image Hin. by apply elem_of_nil in Hin.
  - unfold run. rewrite foldl_app. cbn [foldl]. by apply step_accounted.
Qed.

End Provenance.
